(** * A shallow embedding of package [logger] (logger.go)

    The Go package is a leveled logging front-end: records are filtered by
    level, composed in a fixed-capacity buffer taken from a bounded pool, and
    handed to an external sink ([logwriter.LogWriter]).  This development
    embeds [buffer], [Logger] and their methods as executable Rocq
    definitions and proves the properties of the specification about them. *)

From Stdlib Require Import ZArith Lia.
From Stdlib Require Import Strings.Byte.
From stdpp Require Import base option list gmap strings pretty.

Open Scope Z_scope.

(** ** Go primitives used by the package *)

Module Go.

(** Go's [int] is a 64-bit signed integer on the platforms the package
    targets; [+] and [-] wrap around. *)
Definition int_bits : Z := 64.
Definition max_int : Z := 2 ^ (int_bits - 1) - 1.
Definition min_int : Z := - 2 ^ (int_bits - 1).

Definition wrap_int (z : Z) : Z :=
  (z + 2 ^ (int_bits - 1)) mod 2 ^ int_bits - 2 ^ (int_bits - 1).

Definition int_add (a b : Z) : Z := wrap_int (a + b).
Definition int_sub (a b : Z) : Z := wrap_int (a - b).

(** [len(s)] *)
Definition len {A} (s : list A) : Z := Z.of_nat (length s).

(** [s[lo:hi]]: a run-time panic ([None]) unless [0 <= lo <= hi <= len(s)]. *)
Definition slice {A} (s : list A) (lo hi : Z) : option (list A) :=
  if bool_decide (0 <= lo ∧ lo <= hi ∧ hi <= len s)
  then Some (take (Z.to_nat (hi - lo)) (drop (Z.to_nat lo) s))
  else None.

(** [s[i]]: a run-time panic ([None]) unless [0 <= i < len(s)]. *)
Definition index {A} (s : list A) (i : Z) : option A :=
  if bool_decide (0 <= i) then s !! Z.to_nat i else None.

(** [copy(dst, src)] copies [min(len(dst), len(src))] elements; the result
    is the new contents of [dst]. *)
Definition copy {A} (dst src : list A) : list A :=
  let n := (length dst `min` length src)%nat in
  take n src ++ drop n dst.

(** Storing the elements of a slice [arr[lo:lo+len(region)]] back into the
    array it aliases. *)
Definition store {A} (arr : list A) (lo : Z) (region : list A) : list A :=
  take (Z.to_nat lo) arr ++ region
    ++ drop (Z.to_nat lo + length region) arr.

(** A counted loop [for i := 0; i < n; i++ { body }] whose body may panic. *)
Fixpoint for_n {S} (n : nat) (body : S → option S) (s : S) : option S :=
  match n with
  | O => Some s
  | S n' => s' ← body s; for_n n' body s'
  end.

End Go.

(** ** Constants *)

Definition FatalLevel : Z := 0.
Definition ErrorLevel : Z := 1.
Definition WarnLevel : Z := 2.
Definition InfoLevel : Z := 3.
Definition DebugLevel : Z := 4.
Definition TraceLevel : Z := 5.

Definition defaulMaxRecordSize : Z := 4060.
Definition defaulBuffers : Z := 1000.
Definition defaulBufferSize : Z := 4096.

(** [levelStrings], as filled by [init]. *)
Definition levelStrings : gmap Z (list byte) :=
  <[TraceLevel := String.list_byte_of_string "TRACE: "]>
  (<[DebugLevel := String.list_byte_of_string "DEBUG: "]>
  (<[InfoLevel := String.list_byte_of_string "INFO: "]>
  (<[WarnLevel := String.list_byte_of_string "WARNING: "]>
  (<[ErrorLevel := String.list_byte_of_string "ERROR: "]>
  (<[FatalLevel := String.list_byte_of_string "FATAL: "]> ∅))))).

(** ** [buffer] *)

Record buffer := Buffer {
  buf : list byte;   (* [defaulBufferSize]byte *)
  pos : Z;
}.

(** The zero value of [buffer] ([var buf buffer]). *)
Definition buffer_zero : buffer :=
  {| buf := replicate (Z.to_nat defaulBufferSize) "000"%byte; pos := 0 |}.

(** The array type fixes the length of [buf]. *)
Definition buffer_typed (b : buffer) : Prop :=
  Go.len (buf b) = defaulBufferSize.

Definition clear (b : buffer) : buffer :=
  {| buf := buf b; pos := 0 |}.

Definition get (b : buffer) : option (list byte) :=
  Go.slice (buf b) 0 (pos b).

Definition append (b : buffer) (data : list byte) : option buffer :=
  let l := Go.len data in
  let l := if bool_decide (Go.int_add (pos b) l > defaulBufferSize)
           then Go.int_sub defaulBufferSize (pos b) else l in
  if bool_decide (l > 0) then
    dst ← Go.slice (buf b) (pos b) (Go.int_add (pos b) l);
    Some {| buf := Go.store (buf b) (pos b) (Go.copy dst data);
            pos := Go.int_add (pos b) l |}
  else Some b.

(** [TestBuffer] of the package's tests, returning the bytes compared with
    ["00001"]. *)
Definition TestBuffer : option (list byte) :=
  b ← Go.for_n (Z.to_nat (defaulBufferSize - 1))
        (λ b, append b (String.list_byte_of_string "0")) buffer_zero;
  b ← append b (String.list_byte_of_string "12");
  g ← get b;
  Go.slice g (defaulBufferSize - 5) (Go.len g).

(** ** Auxiliary notions about [buffer] *)

(** The closed form of [append]: the first [min(len(data), capacity - pos)]
    bytes of [data] are written at [pos], the rest of the array is kept. *)
Definition appended (b : buffer) (data : list byte) : buffer :=
  let n := Z.min (Go.len data) (defaulBufferSize - pos b) in
  {| buf := take (Z.to_nat (pos b)) (buf b) ++ take (Z.to_nat n) data
              ++ drop (Z.to_nat (pos b + n)) (buf b);
     pos := pos b + n |}.

(** Go slices are backed by allocated memory, so their length stays far
    below the largest [int]; this is the bound [append]'s addition needs. *)
Definition slice_len_ok (data : list byte) : Prop :=
  Go.len data <= Go.max_int - defaulBufferSize.

Definition pos_ok (b : buffer) : Prop := 0 <= pos b <= defaulBufferSize.

(** The buffer of [TestBuffer] after [j] one-byte appends of ["0"]. *)
Definition filled (j : nat) : buffer :=
  {| buf := replicate j "0"%byte
              ++ replicate (Z.to_nat defaulBufferSize - j) "000"%byte;
     pos := Z.of_nat j |}.

(** ** The environment of the package

    [os], [time], [log], [os/signal] and [logwriter] are collaborators of
    the package, not part of it.  They are modelled by the state they keep
    and by the trace of the calls the package makes to them. *)

(** Go [error] values, by their message. *)
Definition error := string.

(** Go function values ([func(int)], [func(io.Writer)]), by name; [None] is
    [nil]. *)
Definition callback := option string.

(** [*os.File]: an open descriptor and the name it was opened with. *)
Record File := mkFile {
  fd : nat;
  fname : string;
}.

(** Modelled from the spec: [logwriter.LogWriter], the external sink, of
    which the package only uses [New], [Write] and [Reset].  The sink keeps
    the handle [Out] it writes to; [Reset] redirects future writes to a new
    handle and [Write] takes the bytes of one record. *)
Record LogWriter := mkLogWriter {
  Out : File;
  lwSkipHandler : callback;
  lwWriteErrorHandler : callback;
}.

Inductive event :=
  | EvOpenFile (name : string) (r : File + error)  (* os.OpenFile *)
  | EvClose (f : File)                             (* os.File.Close *)
  | EvWriterNew (a : nat) (cfg : LogWriter)        (* logwriter.New *)
  | EvReset (a : nat) (f : File)                   (* LogWriter.Reset *)
  | EvWrite (a : nat) (out : File) (p : list byte) (* LogWriter.Write *)
  | EvSetOutput (a : nat)                          (* log.SetOutput *)
  | EvNotify                                       (* signal.Notify(_, SIGHUP) *)
  | EvGo (fn : string).                            (* go l.fn() *)

Record World := mkWorld {
  fs_error : string → option error; (* the paths os.OpenFile cannot open *)
  clock : string → list byte;       (* time.Now().Format(layout) *)
  sink_fault : list byte → bool;    (* the records on which Write panics *)
  next_fd : nat;
  open_fds : gset nat;              (* descriptors opened and not closed *)
  writers : gmap nat LogWriter;     (* the allocated *LogWriter objects *)
  log_output : option nat;          (* the writer of the standard logger *)
  trace : list event;               (* calls made so far, oldest first *)
}.

Definition emit (e : event) (w : World) : World :=
  mkWorld (fs_error w) (clock w) (sink_fault w) (next_fd w) (open_fds w)
    (writers w) (log_output w) (trace w ++ [e]).

Definition set_writers (ws : gmap nat LogWriter) (w : World) : World :=
  mkWorld (fs_error w) (clock w) (sink_fault w) (next_fd w) (open_fds w)
    ws (log_output w) (trace w).

Definition set_log_output (a : nat) (w : World) : World :=
  mkWorld (fs_error w) (clock w) (sink_fault w) (next_fd w) (open_fds w)
    (writers w) (Some a) (trace w).

Definition set_fds (n : nat) (fds : gset nat) (w : World) : World :=
  mkWorld (fs_error w) (clock w) (sink_fault w) n fds
    (writers w) (log_output w) (trace w).

(** [os.OpenFile(name, O_APPEND|O_CREATE|O_WRONLY, 0644)] *)
Definition os_OpenFile (name : string) (w : World) : (File + error) * World :=
  match fs_error w name with
  | Some e => (inr e, emit (EvOpenFile name (inr e)) w)
  | None =>
      let f := mkFile (next_fd w) name in
      (inl f, emit (EvOpenFile name (inl f))
                (set_fds (S (next_fd w)) ({[next_fd w]} ∪ open_fds w) w))
  end.

(** [f.Close()]; its error is never looked at by the package. *)
Definition file_Close (f : File) (w : World) : World :=
  emit (EvClose f) (set_fds (next_fd w) (open_fds w ∖ {[fd f]}) w).

(** [logwriter.New(cfg)]: a fresh writer object. *)
Definition logwriter_New (cfg : LogWriter) (w : World) : nat * World :=
  let a := fresh (dom (writers w)) in
  (a, emit (EvWriterNew a cfg) (set_writers (<[a := cfg]> (writers w)) w)).

(** [log.SetOutput(w)] *)
Definition log_SetOutput (a : nat) (w : World) : World :=
  emit (EvSetOutput a) (set_log_output a w).

(** ** [LoggerConfig] and [Logger] *)

Record LoggerConfig := mkLoggerConfig {
  Filename : string;
  SkipHandler : callback;
  WriteErrorHandler : callback;
}.

(** The mutexes [muUpdate] and [muReopen] and the channel [signalChan]
    carry no data of their own; every critical section is one step of the
    model. *)
Record Logger := mkLogger {
  writer : nat;                (* *logwriter.LogWriter *)
  buffers : list buffer;       (* [defaulBuffers]buffer *)
  bufStack : list Z;           (* chan int; the head is received first *)
  skipHandler : callback;
  writeErrorHandler : callback;
  currentLevel : Z;
  timeFormat : string;
  timeStr : list byte;
  filename : string;
  file : File;
}.

Definition set_buffers (bs : list buffer) (l : Logger) : Logger :=
  mkLogger (writer l) bs (bufStack l) (skipHandler l) (writeErrorHandler l)
    (currentLevel l) (timeFormat l) (timeStr l) (filename l) (file l).

Definition set_bufStack (c : list Z) (l : Logger) : Logger :=
  mkLogger (writer l) (buffers l) c (skipHandler l) (writeErrorHandler l)
    (currentLevel l) (timeFormat l) (timeStr l) (filename l) (file l).

Definition set_currentLevel (v : Z) (l : Logger) : Logger :=
  mkLogger (writer l) (buffers l) (bufStack l) (skipHandler l)
    (writeErrorHandler l) v (timeFormat l) (timeStr l) (filename l) (file l).

Definition set_timeFormat (s : string) (l : Logger) : Logger :=
  mkLogger (writer l) (buffers l) (bufStack l) (skipHandler l)
    (writeErrorHandler l) (currentLevel l) s (timeStr l) (filename l) (file l).

Definition set_timeStr (t : list byte) (l : Logger) : Logger :=
  mkLogger (writer l) (buffers l) (bufStack l) (skipHandler l)
    (writeErrorHandler l) (currentLevel l) (timeFormat l) t (filename l)
    (file l).

Definition set_file (f : File) (l : Logger) : Logger :=
  mkLogger (writer l) (buffers l) (bufStack l) (skipHandler l)
    (writeErrorHandler l) (currentLevel l) (timeFormat l) (timeStr l)
    (filename l) f.

(** [New] *)
Definition New (config : LoggerConfig) (w : World) : (Logger + error) * World :=
  match os_OpenFile (Filename config) w with
  | (inr err, w) => (inr err, w)
  | (inl f, w) =>
      let timeFormat := "2006.01.02 15:04:05.00 "%string in
      let sl := clock w timeFormat in
      let '(wr, w) :=
        logwriter_New
          (mkLogWriter f (SkipHandler config) (WriteErrorHandler config)) w in
      let bufStack := seqZ 0 defaulBuffers in
      let w := log_SetOutput wr w in
      let w := emit EvNotify w in
      let w := emit (EvGo "updateTime") w in
      let w := emit (EvGo "signalLoop") w in
      (inl {| writer := wr;
              buffers := replicate (Z.to_nat defaulBuffers) buffer_zero;
              bufStack := bufStack;
              skipHandler := SkipHandler config;
              writeErrorHandler := WriteErrorHandler config;
              currentLevel := InfoLevel;
              timeFormat := timeFormat;
              timeStr := sl;
              filename := Filename config;
              file := f |}, w)
  end.

(** ** Methods of [Logger]

    A method runs on the logger it is called on and on the environment; it
    returns, panics, or blocks for ever on a channel operation. *)

Inductive panic :=
  | IndexOutOfRange   (* s[i] out of range *)
  | SliceBounds       (* s[lo:hi] out of range *)
  | NilDereference
  | SinkPanic.        (* raised inside the sink *)

Inductive res (A : Type) :=
  | Ok (a : A)
  | Panic (p : panic)
  | Block.
Arguments Ok {A} a.
Arguments Panic {A} p.
Arguments Block {A}.

Definition M (A : Type) : Type := Logger * World → res A * (Logger * World).

Global Instance M_ret : MRet M := λ A a s, (Ok a, s).

Global Instance M_bind : MBind M := λ A B f m s,
  match m s with
  | (Ok a, s') => f a s'
  | (Panic p, s') => (Panic p, s')
  | (Block, s') => (Block, s')
  end.

(** [defer fin; body]: [fin] runs when [body] returns and when it panics;
    a panic of [body] goes on once [fin] has returned. *)
Definition defer {A} (fin : M unit) (body : M A) : M A := λ s,
  match body s with
  | (Block, s') => (Block, s')
  | (r, s') =>
      match fin s' with
      | (Ok _, s'') => (r, s'')
      | (Panic p, s'') => (Panic p, s'')
      | (Block, s'') => (Block, s'')
      end
  end.

Definition lift {A} (p : panic) (o : option A) : M A := λ s,
  match o with
  | Some a => (Ok a, s)
  | None => (Panic p, s)
  end.

(** [<-l.bufStack] *)
Definition recv_bufStack : M Z := λ '(l, w),
  match bufStack l with
  | [] => (Block, (l, w))
  | i :: rest => (Ok i, (set_bufStack rest l, w))
  end.

(** [l.bufStack <- i]; the channel holds at most [defaulBuffers] values. *)
Definition send_bufStack (i : Z) : M unit := λ '(l, w),
  if bool_decide (Go.len (bufStack l) < defaulBuffers)
  then (Ok tt, (set_bufStack (bufStack l ++ [i]) l, w))
  else (Block, (l, w)).

(** [l.buffers[i]], read and written. *)
Definition buffer_at (i : Z) : M buffer := λ '(l, w),
  lift IndexOutOfRange (Go.index (buffers l) i) (l, w).

Definition put_buffer (i : Z) (b : buffer) : M unit := λ '(l, w),
  (Ok tt, (set_buffers (<[Z.to_nat i := b]> (buffers l)) l, w)).

Definition buf_clear (i : Z) : M unit :=
  b ← buffer_at i; put_buffer i (clear b).

Definition buf_append (i : Z) (data : list byte) : M unit :=
  b ← buffer_at i; b' ← lift SliceBounds (append b data); put_buffer i b'.

Definition buf_get (i : Z) : M (list byte) :=
  b ← buffer_at i; lift SliceBounds (get b).

(** [l.writer.Write(p)]; what [Write] returns is dropped by the caller. *)
Definition writer_Write (p : list byte) : M unit := λ '(l, w),
  match writers w !! writer l with
  | None => (Panic NilDereference, (l, w))
  | Some lw =>
      let w' := emit (EvWrite (writer l) (Out lw) p) w in
      if sink_fault w p then (Panic SinkPanic, (l, w')) else (Ok tt, (l, w'))
  end.

(** [l.writer.Reset(f)] *)
Definition writer_Reset (f : File) : M unit := λ '(l, w),
  match writers w !! writer l with
  | None => (Panic NilDereference, (l, w))
  | Some lw =>
      let lw' := mkLogWriter f (lwSkipHandler lw) (lwWriteErrorHandler lw) in
      (Ok tt, (l, emit (EvReset (writer l) f)
                    (set_writers (<[writer l := lw']> (writers w)) w)))
  end.

Definition SetLevel (level : Z) : M (option error) := λ '(l, w),
  match levelStrings !! level with
  | None => (Ok (Some ("Unknown log level " +:+ pretty level)), (l, w))
  | Some _ => (Ok None, (set_currentLevel level l, w))
  end.

Definition SetTimeFormat (layout : string) : M unit := λ '(l, w),
  (Ok tt, (set_timeFormat layout l, w)).

(** [l.file.Close()] and [l.file = f] *)
Definition close_file : M unit := λ '(l, w),
  (Ok tt, (l, file_Close (file l) w)).

Definition assign_file (f : File) : M unit := λ '(l, w),
  (Ok tt, (set_file f l, w)).

Definition Reopen : M (option error) := λ '(l, w),
  match os_OpenFile (filename l) w with
  | (inr err, w) => (Ok (Some err), (l, w))
  | (inl f, w) =>
      (writer_Reset f;;
       close_file;;
       assign_file f;;
       (mret None : M (option error))) (l, w)
  end.

(** One round of the loop of [updateTime]. *)
Definition updateTime_tick : M unit := λ '(l, w),
  (Ok tt, (set_timeStr (clock w (timeFormat l)) l, w)).

(** One round of the loop of [signalLoop], on SIGHUP. *)
Definition signalLoop_round : M unit := Reopen;; mret tt.

Definition getTime : M (list byte) := λ '(l, w), (Ok (timeStr l), (l, w)).

(** [levelStrings[level]]: a missing key reads as the nil slice. *)
Definition levelString (level : Z) : list byte :=
  default [] (levelStrings !! level).

(** The byte ['\n']. *)
Definition newline : byte := Byte.x0a.

Global Instance byte_eq_decision : EqDecision byte := Byte.byte_eq_dec.

(** The level check at the head of [output]: does the record pass? *)
Definition output_filter (level : Z) : M bool := λ '(l, w),
  (Ok (negb (bool_decide (level > currentLevel l))), (l, w)).

(** The statements of [output] up to the test of the last byte: the value
    is [l.buffers[i].get()] as the test reads it. *)
Definition output_compose (i level : Z) (data : list byte) : M (list byte) :=
  buf_clear i;;
  t ← getTime;
  buf_append i t;;
  buf_append i (levelString level);;
  buf_append i data;;
  buf_get i.

(** The statements of [output] after the [defer]. *)
Definition output_body (i level : Z) (data : list byte) : M unit :=
  g2 ← output_compose i level data;
  g1 ← buf_get i;
  last ← lift IndexOutOfRange (Go.index g1 (Go.int_sub (Go.len g2) 1));
  (if bool_decide (last ≠ newline) then buf_append i [newline]
   else mret tt);;
  g ← buf_get i;
  writer_Write g.

Definition output (level : Z) (data : list byte) : M unit :=
  pass ← output_filter level;
  if pass : bool then
    i ← recv_bufStack;
    defer (send_bufStack i) (output_body i level data)
  else mret tt.

Definition LogFatal (data : list byte) : M unit := output FatalLevel data.
Definition LogError (data : list byte) : M unit := output ErrorLevel data.
Definition LogWarn (data : list byte) : M unit := output WarnLevel data.
Definition LogInfo (data : list byte) : M unit := output InfoLevel data.
Definition LogDebug (data : list byte) : M unit := output DebugLevel data.
Definition LogTrace (data : list byte) : M unit := output TraceLevel data.

(** ** Notions used to state the properties *)

(** The six levels the package defines. *)
Definition defined_levels : list Z :=
  [FatalLevel; ErrorLevel; WarnLevel; InfoLevel; DebugLevel; TraceLevel].

(** The prefix the specification gives for each level. *)
Definition prefix_table : list (Z * string) :=
  [(FatalLevel, "FATAL: "); (ErrorLevel, "ERROR: "); (WarnLevel, "WARNING: ");
   (InfoLevel, "INFO: "); (DebugLevel, "DEBUG: "); (TraceLevel, "TRACE: ")]%string.

(** The six public entry points, with the level each one passes on. *)
Definition entry_points : list ((list byte → M unit) * Z) :=
  [(LogFatal, FatalLevel); (LogError, ErrorLevel); (LogWarn, WarnLevel);
   (LogInfo, InfoLevel); (LogDebug, DebugLevel); (LogTrace, TraceLevel)].

(** The bytes a buffer holds: what [get] returns. *)
Definition content (b : buffer) : list byte :=
  take (Z.to_nat (pos b)) (buf b).

(** Slot [i] of [l.buffers] is the well-typed buffer [b]. *)
Definition slot (l : Logger) (i : Z) (b : buffer) : Prop :=
  0 <= i ∧ buffers l !! Z.to_nat i = Some b ∧ buffer_typed b.

Definition with_buffer (i : Z) (b : buffer) (l : Logger) : Logger :=
  set_buffers (<[Z.to_nat i := b]> (buffers l)) l.

(** A record as the specification writes it: timestamp, prefix, payload,
    and a newline unless the bytes already end with one. *)
Definition record_bytes (ts pre payload : list byte) : list byte :=
  let c := ts ++ pre ++ payload in
  if bool_decide (last c = Some newline) then c else c ++ [newline].

(** The buffer of [output] when the last byte is tested, and when it is
    handed to the sink. *)
Definition composed (b : buffer) (ts : list byte) (level : Z)
    (data : list byte) : buffer :=
  appended (appended (appended (clear b) ts) (levelString level)) data.

Definition terminated (b : buffer) : buffer :=
  if bool_decide (last (content b) = Some newline) then b
  else appended b [newline].

(** The records handed to the sink so far, oldest first. *)
Definition sink_input (w : World) : list (list byte) :=
  omap (λ e, match e with EvWrite _ _ p => Some p | _ => None end) (trace w).

(** An action that does not use [bufStack]: it cannot block and leaves the
    channel as it was, whether it returns or panics. *)
Definition off_channel {A} (m : M A) : Prop :=
  ∀ s, (m s).1 ≠ Block ∧ bufStack (m s).2.1 = bufStack s.1.

(** ** Concurrent callers

    Several goroutines call [output] at once.  A call is cut at the points
    where it touches shared state: the level check, the receive from
    [bufStack], the body, and the deferred send. *)

Inductive thread :=
  | AtFilter (level : Z) (data : list byte)
  | AtRecv (level : Z) (data : list byte)
  | Holding (i : Z) (level : Z) (data : list byte)
  | Releasing (i : Z) (r : res unit)
  | Finished (r : res unit).

(** One step of a call; a call that is blocked or over does not move. *)
Definition thread_step (t : thread) (s : Logger * World)
  : thread * (Logger * World) :=
  match t with
  | AtFilter level data =>
      match output_filter level s with
      | (Ok true, s') => (AtRecv level data, s')
      | (Ok false, s') => (Finished (Ok tt), s')
      | (Panic p, s') => (Finished (Panic p), s')
      | (Block, _) => (t, s)
      end
  | AtRecv level data =>
      match recv_bufStack s with
      | (Ok i, s') => (Holding i level data, s')
      | (Panic p, s') => (Finished (Panic p), s')
      | (Block, _) => (t, s)
      end
  | Holding i level data =>
      match output_body i level data s with
      | (Block, _) => (t, s)
      | (r, s') => (Releasing i r, s')
      end
  | Releasing i r =>
      match send_bufStack i s with
      | (Ok _, s') => (Finished r, s')
      | (Panic p, s') => (Finished (Panic p), s')
      | (Block, _) => (t, s)
      end
  | Finished r => (t, s)
  end.

(** The index a call has taken from the pool and not yet given back. *)
Definition held (t : thread) : list Z :=
  match t with
  | Holding i _ _ | Releasing i _ => [i]
  | _ => []
  end.

Record System := mkSystem {
  threads : list thread;
  shared : Logger * World;
}.

Definition chan (sys : System) : list Z := bufStack (shared sys).1.

Definition checked_out (sys : System) : list Z := threads sys ≫= held.

(** What may happen next: a new call of [output], a step of a call under
    way, or one of the other methods, called by the program or by the
    background goroutines. *)
Inductive action :=
  | Call (level : Z) (data : list byte)
  | Run (tid : nat)
  | DoSetLevel (level : Z)
  | DoSetTimeFormat (layout : string)
  | DoReopen
  | Tick
  | Sighup.

Definition exec_action (a : action) (sys : System) : System :=
  match a with
  | Call level data =>
      mkSystem (threads sys ++ [AtFilter level data]) (shared sys)
  | Run tid =>
      match threads sys !! tid with
      | Some t =>
          let '(t', s') := thread_step t (shared sys) in
          mkSystem (<[tid := t']> (threads sys)) s'
      | None => sys
      end
  | DoSetLevel level => mkSystem (threads sys) (SetLevel level (shared sys)).2
  | DoSetTimeFormat layout =>
      mkSystem (threads sys) (SetTimeFormat layout (shared sys)).2
  | DoReopen => mkSystem (threads sys) (Reopen (shared sys)).2
  | Tick => mkSystem (threads sys) (updateTime_tick (shared sys)).2
  | Sighup => mkSystem (threads sys) (signalLoop_round (shared sys)).2
  end.

Definition exec (sched : list action) (sys : System) : System :=
  foldl (λ sys a, exec_action a sys) sys sched.

(** The pool invariant: the indices in the channel and the indices checked
    out are, together, the indices [0 .. defaulBuffers-1], each once. *)
Definition pool_partition (sys : System) : Prop :=
  chan sys ++ checked_out sys ≡ₚ seqZ 0 defaulBuffers.

(** Every call that holds an index goes on to give it back: the body leads
    to the deferred send whether it returns or panics, and the deferred
    send goes through and puts the index at the back of the channel. *)
Definition release_guaranteed (sys : System) : Prop :=
  ∀ tid t, threads sys !! tid = Some t →
    match t with
    | Holding i level data =>
        ∃ r s', thread_step t (shared sys) = (Releasing i r, s')
                ∧ r ≠ Block ∧ bufStack s'.1 = chan sys
    | Releasing i r =>
        thread_step t (shared sys)
        = (Finished r,
           (set_bufStack (chan sys ++ [i]) (shared sys).1, (shared sys).2))
    | _ => held t = []
    end.

(** A call run alone, from its first step to its last. *)
Definition run_alone (level : Z) (data : list byte) (s : Logger * World)
  : thread * (Logger * World) :=
  let '(t, s) := thread_step (AtFilter level data) s in
  let '(t, s) := thread_step t s in
  let '(t, s) := thread_step t s in
  thread_step t s.

(** ** A concrete run

    The logger of the package's example, in a world where every path but
    ["/"] opens and the clock shows one fixed instant. *)

Definition demo_world : World :=
  mkWorld
    (λ name, if bool_decide (name = "/"%string)
             then Some "open /: is a directory"%string else None)
    (λ _, String.list_byte_of_string "2019.03.01 10:20:30.00 ")
    (λ _, false) 3 ∅ ∅ None [].

Definition demo_config : LoggerConfig :=
  mkLoggerConfig "./Example.log" None None.

Definition demo_logger : Logger :=
  {| writer := 0;
     buffers := replicate (Z.to_nat defaulBuffers) buffer_zero;
     bufStack := seqZ 0 defaulBuffers;
     skipHandler := None;
     writeErrorHandler := None;
     currentLevel := InfoLevel;
     timeFormat := "2006.01.02 15:04:05.00 ";
     timeStr := String.list_byte_of_string "2019.03.01 10:20:30.00 ";
     filename := "./Example.log";
     file := mkFile 3 "./Example.log" |}.

(** The state [New(demo_config)] leaves. *)
Definition demo_state : Logger * World :=
  (demo_logger, (New demo_config demo_world).2).

(** A payload as long as a whole buffer. *)
Definition long_payload : list byte :=
  replicate (Z.to_nat defaulBufferSize) "a"%byte.

(** The format of a record as the specification states it, for one call of
    [output]: the sink receives exactly timestamp, prefix, payload and the
    closing newline. *)
Definition output_format_claim (level : Z) (data : list byte)
    (s : Logger * World) : Prop :=
  sink_input (output level data s).2.2
  = sink_input s.2
      ++ [record_bytes (timeStr s.1) (levelString level) data].

(** ** Sequences of buffer operations *)

Inductive buffer_op :=
  | OpClear
  | OpAppend (data : list byte).

Definition buffer_do (o : buffer_op) (b : buffer) : option buffer :=
  match o with
  | OpClear => Some (clear b)
  | OpAppend data => append b data
  end.

(** The operations applied in order; [None] when one of them panics. *)
Fixpoint buffer_run (os : list buffer_op) (b : buffer) : option buffer :=
  match os with
  | [] => Some b
  | o :: os => b' ← buffer_do o b; buffer_run os b'
  end.

(** The same operations on the bytes held: [clear] empties, [append]
    adds and cuts at the capacity. *)
Definition bytes_do (o : buffer_op) (c : list byte) : list byte :=
  match o with
  | OpClear => []
  | OpAppend data => take (Z.to_nat defaulBufferSize) (c ++ data)
  end.

Definition bytes_run (os : list buffer_op) (c : list byte) : list byte :=
  foldl (λ c o, bytes_do o c) c os.

Definition buffer_op_ok (o : buffer_op) : Prop :=
  match o with
  | OpClear => True
  | OpAppend data => slice_len_ok data
  end.

(** ** Sequential use of the public operations *)

(** A call of one of the public methods, or a tick of the time cache.
    [CLog level] stands for the entry point of that level. *)
Inductive api_call :=
  | CLog (level : Z) (data : list byte)
  | CSetLevel (level : Z)
  | CSetTimeFormat (layout : string)
  | CReopen
  | CTick.

(** The call as a statement whose results are dropped, the way the tests
    and [signalLoop] call [SetLevel] and [Reopen]. *)
Definition do_call (c : api_call) : M unit :=
  match c with
  | CLog level data => output level data
  | CSetLevel level => SetLevel level;; mret tt
  | CSetTimeFormat layout => SetTimeFormat layout
  | CReopen => signalLoop_round
  | CTick => updateTime_tick
  end.

(** The calls made one after the other, with the outcome of each. *)
Fixpoint run_calls (cs : list api_call) (s : Logger * World)
  : list (res unit) * (Logger * World) :=
  match cs with
  | [] => ([], s)
  | c :: cs =>
      let '(r, s') := do_call c s in
      let '(rs, s'') := run_calls cs s' in
      (r :: rs, s'')
  end.

Definition call_ok (c : api_call) : Prop :=
  match c with
  | CLog level data => level ∈ defined_levels ∧ slice_len_ok data
  | _ => True
  end.

(** What the environment guarantees: descriptors are handed out in
    increasing order and formatted times are Go-sized slices. *)
Definition world_ok (w : World) : Prop :=
  (∀ d, d ∈ open_fds w → (d < next_fd w)%nat)
  ∧ (∀ layout, slice_len_ok (clock w layout)).

(** The state of a logger between two calls. *)
Definition logger_ok (s : Logger * World) : Prop :=
  length (buffers s.1) = Z.to_nat defaulBuffers
  ∧ Forall (λ b, buffer_typed b ∧ pos_ok b) (buffers s.1)
  ∧ bufStack s.1 ≡ₚ seqZ 0 defaulBuffers
  ∧ currentLevel s.1 ∈ defined_levels
  ∧ slice_len_ok (timeStr s.1)
  ∧ (∃ lw, writers s.2 !! writer s.1 = Some lw ∧ Out lw = file s.1)
  ∧ fd (file s.1) ∈ open_fds s.2
  ∧ world_ok s.2.

(** The records handed to the sink, each with the handle the sink was
    writing to. *)
Definition sink_writes (w : World) : list (File * list byte) :=
  omap (λ e, match e with EvWrite _ out p => Some (out, p) | _ => None end)
       (trace w).

(** What a user sees of a logger: threshold, layout, cached time, the
    file written to, and the next descriptor of the system. *)
Record view := mkView {
  v_level : Z;
  v_layout : string;
  v_time : list byte;
  v_file : File;
  v_next_fd : nat;
}.

Definition view_of (s : Logger * World) : view :=
  mkView (currentLevel s.1) (timeFormat s.1) (timeStr s.1) (file s.1)
    (next_fd s.2).

(** The effect of one call on the view and the records it writes:
    a record is written when its level passes the threshold in force, with
    the time cached at the last tick, to the file opened last. *)
Definition view_step (fs : string → option error) (clk : string → list byte)
    (name : string) (c : api_call) (v : view)
  : view * list (File * list byte) :=
  match c with
  | CLog level data =>
      (v, if bool_decide (level <= v_level v)
          then [(v_file v,
                 take (Z.to_nat defaulBufferSize)
                   (record_bytes (v_time v) (levelString level) data))]
          else [])
  | CSetLevel level =>
      (if bool_decide (level ∈ defined_levels)
       then mkView level (v_layout v) (v_time v) (v_file v) (v_next_fd v)
       else v, [])
  | CSetTimeFormat layout =>
      (mkView (v_level v) layout (v_time v) (v_file v) (v_next_fd v), [])
  | CReopen =>
      (match fs name with
       | None => mkView (v_level v) (v_layout v) (v_time v)
                   (mkFile (v_next_fd v) name) (S (v_next_fd v))
       | Some _ => v
       end, [])
  | CTick =>
      (mkView (v_level v) (v_layout v) (clk (v_layout v)) (v_file v)
         (v_next_fd v), [])
  end.

Fixpoint view_run (fs : string → option error) (clk : string → list byte)
    (name : string) (cs : list api_call) (v : view)
  : view * list (File * list byte) :=
  match cs with
  | [] => (v, [])
  | c :: cs =>
      let '(v', out) := view_step fs clk name c v in
      let '(v'', outs) := view_run fs clk name cs v' in
      (v'', out ++ outs)
  end.

(** What [output] leaves alone: the configuration of the logger and every
    object of the environment. *)
Definition same_config (s s' : Logger * World) : Prop :=
  writer s'.1 = writer s.1 ∧ currentLevel s'.1 = currentLevel s.1
  ∧ timeFormat s'.1 = timeFormat s.1 ∧ timeStr s'.1 = timeStr s.1
  ∧ filename s'.1 = filename s.1 ∧ file s'.1 = file s.1
  ∧ length (buffers s'.1) = length (buffers s.1)
  ∧ open_fds s'.2 = open_fds s.2 ∧ next_fd s'.2 = next_fd s.2
  ∧ writers s'.2 = writers s.2 ∧ log_output s'.2 = log_output s.2.

(** The calls under way: those that have not returned. *)
Definition finished (t : thread) : bool :=
  match t with
  | Finished _ => true
  | _ => false
  end.

Definition in_flight (ts : list thread) : list thread :=
  filter (λ t, finished t = false) ts.

(** The records a run of log calls [(level, payload)] writes under a fixed
    threshold and cached time: those whose level passes, in call order. *)
Definition logged (threshold : Z) (ts : list byte)
    (cs : list (Z * list byte)) : list (list byte) :=
  (λ c, take (Z.to_nat defaulBufferSize)
          (record_bytes ts (levelString c.1) c.2))
  <$> filter (λ c, c.1 <= threshold) cs.

Definition log_calls (cs : list (Z * list byte)) : list api_call :=
  (λ c, CLog c.1 c.2) <$> cs.

Definition log_ok (c : Z * list byte) : Prop :=
  c.1 ∈ defined_levels ∧ slice_len_ok c.2.

(** An action that changes buffer slots and the channel at most. *)
Definition silent {A} (m : M A) : Prop :=
  ∀ s, same_config s (m s).2 ∧ trace (m s).2.2 = trace s.2.

(** An action that, besides, calls [Write] on the logger's writer at most
    once and makes no other call. *)
Definition writes_once {A} (m : M A) : Prop :=
  ∀ s, same_config s (m s).2
       ∧ (trace (m s).2.2 = trace s.2
          ∨ ∃ out p, trace (m s).2.2
                     = trace s.2 ++ [EvWrite (writer s.1) out p]).

(** ** Soundness under interleaving *)

(** What [logger_ok] says apart from the channel, which concurrent calls
    share. *)
Definition sound (s : Logger * World) : Prop :=
  length (buffers s.1) = Z.to_nat defaulBuffers
  ∧ Forall (λ b, buffer_typed b ∧ pos_ok b) (buffers s.1)
  ∧ currentLevel s.1 ∈ defined_levels
  ∧ slice_len_ok (timeStr s.1)
  ∧ (∃ lw, writers s.2 !! writer s.1 = Some lw ∧ Out lw = file s.1)
  ∧ fd (file s.1) ∈ open_fds s.2
  ∧ world_ok s.2.




(** ** Facts about the Go primitives *)

Lemma wrap_int_small z :
  Go.min_int <= z <= Go.max_int → Go.wrap_int z = z.
Proof.
  unfold Go.wrap_int, Go.min_int, Go.max_int, Go.int_bits. intros Hz.
  rewrite Z.mod_small; lia.
Qed.

Lemma max_int_val : Go.max_int = 9223372036854775807.
Proof. reflexivity. Qed.

Lemma min_int_val : Go.min_int = -9223372036854775808.
Proof. reflexivity. Qed.

Section go_facts.
Context {A : Type}.
Implicit Types s dst src arr : list A.

Lemma len_nonneg s : 0 <= Go.len s.
Proof. unfold Go.len. lia. Qed.

Lemma len_app s1 s2 : Go.len (s1 ++ s2) = Go.len s1 + Go.len s2.
Proof. unfold Go.len. rewrite length_app. lia. Qed.

Lemma slice_Some s lo hi :
  0 <= lo → lo <= hi → hi <= Go.len s →
  Go.slice s lo hi = Some (take (Z.to_nat (hi - lo)) (drop (Z.to_nat lo) s)).
Proof. intros. unfold Go.slice. rewrite bool_decide_eq_true_2; auto. Qed.

Lemma slice_prefix s hi :
  0 <= hi → hi <= Go.len s → Go.slice s 0 hi = Some (take (Z.to_nat hi) s).
Proof.
  intros. rewrite slice_Some by lia. rewrite Z.sub_0_r. reflexivity.
Qed.

Lemma copy_fits dst src :
  (length dst <= length src)%nat → Go.copy dst src = take (length dst) src.
Proof.
  intros H. unfold Go.copy. rewrite Nat.min_l by exact H.
  rewrite drop_all. apply app_nil_r.
Qed.
End go_facts.

(** ** Facts about [buffer] *)

Lemma store_copy (bf data : list byte) (p n : Z) :
  0 <= p → 0 <= n → p + n <= Go.len bf → n <= Go.len data →
  Go.store bf p (Go.copy (take (Z.to_nat n) (drop (Z.to_nat p) bf)) data)
  = take (Z.to_nat p) bf ++ take (Z.to_nat n) data
      ++ drop (Z.to_nat (p + n)) bf.
Proof.
  unfold Go.len. intros Hp Hn Hbf Hdata.
  assert (length (take (Z.to_nat n) (drop (Z.to_nat p) bf)) = Z.to_nat n)
    as Hdst by (rewrite length_take, length_drop; lia).
  unfold Go.store. rewrite copy_fits by lia.
  rewrite Hdst, length_take.
  replace (Z.to_nat n `min` length data)%nat with (Z.to_nat n) by lia.
  replace (Z.to_nat p + Z.to_nat n)%nat with (Z.to_nat (p + n)) by lia.
  reflexivity.
Qed.

Lemma append_appended b data :
  buffer_typed b → pos_ok b → slice_len_ok data →
  append b data = Some (appended b data).
Proof.
  unfold buffer_typed, pos_ok, slice_len_ok.
  rewrite max_int_val. unfold defaulBufferSize.
  destruct b as [bf p]. cbn [buf pos].
  intros Hty Hpos Hlen. pose proof (len_nonneg data) as H0.
  unfold append, appended, Go.int_add, Go.int_sub, defaulBufferSize.
  cbn [buf pos].
  rewrite (wrap_int_small (p + Go.len data))
    by (rewrite max_int_val, min_int_val; lia).
  rewrite (wrap_int_small (4096 - p))
    by (rewrite max_int_val, min_int_val; lia).
  set (n := Go.len data `min` (4096 - p)).
  assert ((if bool_decide (p + Go.len data > 4096)
           then 4096 - p else Go.len data) = n) as ->.
  { subst n. case_bool_decide; lia. }
  assert (0 <= n <= Go.len data ∧ p + n <= 4096) as Hn by (subst n; lia).
  clearbody n.
  rewrite wrap_int_small by (rewrite max_int_val, min_int_val; lia).
  case_bool_decide as Hl.
  - (* some bytes are copied *)
    rewrite slice_Some by lia. cbn [mbind option_bind].
    replace (p + n - p) with n by lia.
    rewrite store_copy by lia. reflexivity.
  - (* nothing to copy: the buffer is full or the data empty *)
    assert (n = 0) as -> by lia.
    rewrite take_0, Z.add_0_r. cbn [app]. rewrite take_drop. reflexivity.
Qed.

Lemma appended_typed b data :
  buffer_typed b → pos_ok b → buffer_typed (appended b data).
Proof.
  unfold buffer_typed, pos_ok, appended, Go.len, defaulBufferSize.
  intros Hty Hpos. pose proof (len_nonneg data) as H0. unfold Go.len in H0.
  cbn [buf pos]. rewrite !length_app, !length_take, length_drop. lia.
Qed.

Lemma appended_pos_ok b data : pos_ok b → pos_ok (appended b data).
Proof.
  unfold pos_ok, appended. pose proof (len_nonneg data). cbn [pos]. lia.
Qed.

Lemma filled_step j :
  (j < Z.to_nat defaulBufferSize)%nat →
  append (filled j) (String.list_byte_of_string "0") = Some (filled (S j)).
Proof.
  intros Hj. rewrite append_appended.
  - f_equal. unfold appended, filled. cbn [buf pos].
    change (Go.len (String.list_byte_of_string "0")) with 1.
    rewrite Z.min_l by (unfold defaulBufferSize in *; lia).
    replace (Z.of_nat j + 1) with (Z.of_nat (S j)) by lia.
    f_equal. rewrite !Nat2Z.id.
    rewrite take_app_length' by (symmetry; apply length_replicate).
    rewrite drop_app_ge by (rewrite length_replicate; lia).
    rewrite length_replicate, drop_replicate.
    change (take (Z.to_nat 1) (String.list_byte_of_string "0"))
      with (replicate 1 "0"%byte).
    rewrite app_assoc, <- replicate_add.
    replace (j + 1)%nat with (S j) by lia.
    f_equal. f_equal. lia.
  - unfold buffer_typed, filled, Go.len. cbn [buf].
    rewrite length_app, !length_replicate. lia.
  - unfold pos_ok, filled. cbn [pos]. lia.
  - unfold slice_len_ok. rewrite max_int_val. vm_compute. discriminate.
Qed.

Lemma filled_loop k j :
  (j + k <= Z.to_nat defaulBufferSize)%nat →
  Go.for_n k (λ b, append b (String.list_byte_of_string "0")) (filled j)
  = Some (filled (j + k)).
Proof.
  revert j. induction k as [|k IH]; intros j Hjk.
  - rewrite Nat.add_0_r. reflexivity.
  - cbn [Go.for_n]. rewrite filled_step by lia. cbn [mbind option_bind].
    rewrite IH by lia. f_equal. f_equal. lia.
Qed.

Lemma TestBuffer_result :
  TestBuffer = Some (String.list_byte_of_string "00001").
Proof.
  unfold TestBuffer.
  change buffer_zero with (filled 0).
  rewrite filled_loop by (vm_compute; lia).
  vm_compute. reflexivity.
Qed.


(** ** Levels and [SetLevel] *)

Lemma levelStrings_defined v :
  v ∈ defined_levels → is_Some (levelStrings !! v).
Proof.
  unfold defined_levels. rewrite !elem_of_cons, elem_of_nil.
  intros [->|[->|[->|[->|[->|[->|[]]]]]]]; vm_compute; eauto.
Qed.

Lemma levelStrings_undefined v :
  v ∉ defined_levels → levelStrings !! v = None.
Proof.
  unfold defined_levels. rewrite !not_elem_of_cons. intros (?&?&?&?&?&?&_).
  unfold levelStrings. rewrite !lookup_insert_ne by congruence.
  apply lookup_empty.
Qed.

(** C8: the six level constants are 0 to 5 in the order Fatal, Error, Warn,
    Info, Debug, Trace, so a larger number is a lower severity; [New], when
    the file opens, returns a logger whose threshold is [InfoLevel]. *)
Theorem levels_ordered_default_info (config : LoggerConfig) (w : World) :
  fs_error w (Filename config) = None →
  (FatalLevel = 0 ∧ ErrorLevel = 1 ∧ WarnLevel = 2 ∧ InfoLevel = 3
   ∧ DebugLevel = 4 ∧ TraceLevel = 5)
  ∧ (FatalLevel < ErrorLevel < WarnLevel ∧ WarnLevel < InfoLevel < DebugLevel
     ∧ DebugLevel < TraceLevel)
  ∧ dom levelStrings = list_to_set defined_levels
  ∧ ∃ l w', New config w = (inl l, w') ∧ currentLevel l = InfoLevel.
Proof.
  intros Hopen. split; [|split; [|split]].
  - repeat split.
  - unfold FatalLevel, ErrorLevel, WarnLevel, InfoLevel, DebugLevel,
      TraceLevel. lia.
  - unfold levelStrings, defined_levels. rewrite !dom_insert_L, dom_empty_L.
    cbn [list_to_set foldr]. set_solver.
  - unfold New, os_OpenFile. rewrite Hopen. cbn. eauto.
Qed.

Lemma levels_ordered_default_info_witness :
  ∃ l w', New (mkLoggerConfig "./Example.log" None None)
            (mkWorld (λ _, None) (λ _, []) (λ _, false) 3 ∅ ∅ None [])
          = (inl l, w') ∧ currentLevel l = 3.
Proof.
  apply (levels_ordered_default_info
           (mkLoggerConfig "./Example.log" None None)
           (mkWorld (λ _, None) (λ _, []) (λ _, false) 3 ∅ ∅ None [])).
  reflexivity.
Defined.

(** C4: [SetLevel(v)] on one of the six defined levels returns no error and
    sets the threshold to [v]; on any other value it returns an error and
    leaves the logger, hence its threshold, as it was. *)
Theorem SetLevel_checks_level (v : Z) (l : Logger) (w : World) :
  SetLevel v (l, w) =
    (if bool_decide (v ∈ defined_levels)
     then (Ok None, (set_currentLevel v l, w))
     else (Ok (Some ("Unknown log level " +:+ pretty v)), (l, w)))
  ∧ currentLevel (set_currentLevel v l) = v.
Proof.
  split; [|reflexivity].
  unfold SetLevel. case_bool_decide as Hv.
  - destruct (levelStrings_defined v Hv) as [p ->]. reflexivity.
  - rewrite (levelStrings_undefined v Hv). reflexivity.
Qed.

(** ** [New] and [Reopen] *)

Lemma New_success (config : LoggerConfig) (w : World) :
  fs_error w (Filename config) = None →
  ∃ l w', New config w = (inl l, w')
    ∧ bufStack l = seqZ 0 defaulBuffers
    ∧ buffers l = replicate (Z.to_nat defaulBuffers) buffer_zero
    ∧ currentLevel l = InfoLevel
    ∧ writers w' !! writer l
      = Some (mkLogWriter (file l) (SkipHandler config)
                (WriteErrorHandler config))
    ∧ log_output w' = Some (writer l)
    ∧ trace w' = trace w ++
        [EvOpenFile (Filename config) (inl (file l));
         EvWriterNew (writer l)
           (mkLogWriter (file l) (SkipHandler config)
              (WriteErrorHandler config));
         EvSetOutput (writer l); EvNotify;
         EvGo "updateTime"; EvGo "signalLoop"].
Proof.
  intros Hopen. unfold New, os_OpenFile. rewrite Hopen.
  cbn -[seqZ replicate fresh]. eexists _, _. split; [reflexivity|].
  cbn -[seqZ replicate fresh]. repeat split.
  - apply lookup_insert_eq.
  - rewrite <- !app_assoc. reflexivity.
Qed.

(** C10: whenever [New] succeeds (the file opens) it calls
    [log.SetOutput(l.writer)]: afterwards the writer of the standard logger
    is the writer of the new [Logger], whatever the configuration. *)
Theorem New_redirects_standard_log (config : LoggerConfig) (w : World) :
  fs_error w (Filename config) = None →
  ∃ l w', New config w = (inl l, w')
    ∧ log_output w' = Some (writer l)
    ∧ EvSetOutput (writer l) ∈ trace w'
    ∧ is_Some (writers w' !! writer l).
Proof.
  intros Hopen.
  destruct (New_success config w Hopen)
    as (l & w' & HNew & _ & _ & _ & Hwr & Hout & Htr).
  exists l, w'. repeat split; try assumption.
  - rewrite Htr. set_solver.
  - rewrite Hwr. eauto.
Qed.

Lemma New_redirects_standard_log_witness :
  ∃ l w', New (mkLoggerConfig "./Example.log" None (Some "onError"))
            (mkWorld (λ _, None) (λ _, []) (λ _, false) 3 ∅ ∅ None [])
          = (inl l, w')
    ∧ log_output w' = Some (writer l)
    ∧ EvSetOutput (writer l) ∈ trace w'
    ∧ is_Some (writers w' !! writer l).
Proof.
  apply (New_redirects_standard_log
           (mkLoggerConfig "./Example.log" None (Some "onError"))
           (mkWorld (λ _, None) (λ _, []) (λ _, false) 3 ∅ ∅ None [])).
  reflexivity.
Defined.

(** C5: if the configured path cannot be opened, [Reopen] returns the error
    of [os.OpenFile] and changes nothing but the record of the attempt: the
    logger still has its file, the sink still writes to the handle it had,
    no handle was closed, and a record written next goes to the old
    handle. *)
Theorem Reopen_failure_keeps_handle
    (l : Logger) (w : World) (e : error) (lw : LogWriter) (p : list byte) :
  fs_error w (filename l) = Some e →
  writers w !! writer l = Some lw →
  ∃ w', Reopen (l, w) = (Ok (Some e), (l, w'))
    ∧ trace w' = trace w ++ [EvOpenFile (filename l) (inr e)]
    ∧ writers w' = writers w
    ∧ open_fds w' = open_fds w
    ∧ next_fd w' = next_fd w
    ∧ ∃ r, writer_Write p (l, w')
           = (r, (l, emit (EvWrite (writer l) (Out lw) p) w')).
Proof.
  intros Hfail Hlw. unfold Reopen, os_OpenFile. rewrite Hfail.
  eexists. split; [reflexivity|]. cbn. repeat split.
  unfold writer_Write. cbn. rewrite Hlw.
  destruct (sink_fault w p); eauto.
Qed.

Lemma Reopen_failure_keeps_handle_witness :
  ∃ w', Reopen
          (mkLogger 0 [] [] None None 3 "" [] "/" (mkFile 3 "./a.log"),
           mkWorld (λ _, Some "open /: is a directory"%string) (λ _, [])
             (λ _, false) 4 {[3%nat]}
             {[0%nat := mkLogWriter (mkFile 3 "./a.log") None None]} None [])
        = (Ok (Some "open /: is a directory"%string),
           (mkLogger 0 [] [] None None 3 "" [] "/" (mkFile 3 "./a.log"), w'))
    ∧ open_fds w' = {[3%nat]}.
Proof.
  destruct (Reopen_failure_keeps_handle
    (mkLogger 0 [] [] None None 3 "" [] "/" (mkFile 3 "./a.log"))
    (mkWorld (λ _, Some "open /: is a directory"%string) (λ _, [])
       (λ _, false) 4 {[3%nat]}
       {[0%nat := mkLogWriter (mkFile 3 "./a.log") None None]} None [])
    "open /: is a directory"%string
    (mkLogWriter (mkFile 3 "./a.log") None None) [])
    as (w' & H1 & _ & _ & H2 & _); [reflexivity | reflexivity |].
  exists w'. split; [exact H1 | exact H2].
Defined.



(** ** The monad *)

Lemma bind_Ok {A B} (m : M A) (f : A → M B) s a s' :
  m s = (Ok a, s') → (m ≫= f) s = f a s'.
Proof. intros H. unfold mbind, M_bind. rewrite H. reflexivity. Qed.

Lemma off_channel_bind {A B} (m : M A) (f : A → M B) :
  off_channel m → (∀ a, off_channel (f a)) → off_channel (m ≫= f).
Proof.
  intros Hm Hf s. unfold mbind, M_bind. destruct (Hm s) as [Hb Hc].
  destruct (m s) as [[a|p|] s']; cbn in *; try (split; congruence).
  destruct (Hf a s') as [Hb' Hc']. split; congruence.
Qed.

Lemma off_channel_ret {A} (a : A) : off_channel (mret a : M A).
Proof. intros s. split; [discriminate|reflexivity]. Qed.

Lemma off_channel_lift {A} p (o : option A) : off_channel (lift p o).
Proof. intros s. destruct o; (split; [discriminate|reflexivity]). Qed.

(** ** Buffer slots *)

Lemma slot_with_buffer l i b b' :
  slot l i b → buffer_typed b' → slot (with_buffer i b' l) i b'.
Proof.
  intros (Hi & Hb & _) Hty. split; [assumption|]. split; [|assumption].
  unfold with_buffer. cbn. apply list_lookup_insert_eq.
  eapply lookup_lt_Some, Hb.
Qed.

Lemma with_buffer_twice i b1 b2 l :
  with_buffer i b2 (with_buffer i b1 l) = with_buffer i b2 l.
Proof.
  unfold with_buffer, set_buffers. cbn. rewrite list_insert_insert_eq.
  reflexivity.
Qed.

Lemma buffer_at_slot l w i b :
  slot l i b → buffer_at i (l, w) = (Ok b, (l, w)).
Proof.
  intros (Hi & Hb & _). unfold buffer_at, Go.index.
  rewrite bool_decide_eq_true_2 by assumption. rewrite Hb. reflexivity.
Qed.

Lemma buf_clear_slot l w i b :
  slot l i b → buf_clear i (l, w) = (Ok tt, (with_buffer i (clear b) l, w)).
Proof.
  intros Hs. unfold buf_clear.
  erewrite bind_Ok by (apply buffer_at_slot; eassumption). reflexivity.
Qed.

Lemma buf_append_slot l w i b data :
  slot l i b → pos_ok b → slice_len_ok data →
  buf_append i data (l, w)
  = (Ok tt, (with_buffer i (appended b data) l, w)).
Proof.
  intros Hs Hpos Hlen. unfold buf_append.
  erewrite bind_Ok by (apply buffer_at_slot; eassumption).
  rewrite append_appended by (try apply Hs; assumption).
  reflexivity.
Qed.

Lemma content_get b :
  buffer_typed b → pos_ok b → get b = Some (content b).
Proof.
  unfold buffer_typed, pos_ok, get, content. intros Hty Hpos.
  apply slice_prefix; lia.
Qed.

Lemma buf_get_slot l w i b :
  slot l i b → pos_ok b → buf_get i (l, w) = (Ok (content b), (l, w)).
Proof.
  intros Hs Hpos. unfold buf_get.
  erewrite bind_Ok by (apply buffer_at_slot; eassumption).
  rewrite content_get by (try apply Hs; assumption). reflexivity.
Qed.

Lemma content_length b :
  buffer_typed b → pos_ok b → Go.len (content b) = pos b.
Proof.
  unfold buffer_typed, pos_ok, content, Go.len. intros Hty Hpos.
  rewrite length_take. lia.
Qed.

(** [append] in terms of the bytes held: the new bytes are added and the
    result is cut at the capacity. *)
Lemma content_appended b data :
  buffer_typed b → pos_ok b →
  content (appended b data)
  = take (Z.to_nat defaulBufferSize) (content b ++ data).
Proof.
  intros Hty Hpos. pose proof (content_length b Hty Hpos) as Hlen.
  pose proof (len_nonneg data) as H0.
  unfold content, appended in *. cbn [buf pos].
  unfold buffer_typed, pos_ok, Go.len, defaulBufferSize in *.
  set (n := Z.of_nat (length data) `min` (4096 - pos b)).
  assert (0 <= n ∧ n <= Z.of_nat (length data) ∧ n <= 4096 - pos b
          ∧ (n = Z.of_nat (length data) ∨ n = 4096 - pos b)) as Hn
    by (subst n; lia).
  clearbody n.
  set (c := take (Z.to_nat (pos b)) (buf b)) in *.
  assert (length c = Z.to_nat (pos b)) as Hc by lia.
  clearbody c.
  rewrite take_app_ge by lia.
  rewrite Hc.
  replace (Z.to_nat (pos b + n) - Z.to_nat (pos b))%nat with (Z.to_nat n)
    by lia.
  rewrite (take_app_ge c) by lia. rewrite Hc. f_equal.
  rewrite take_app_length' by (rewrite length_take; lia).
  destruct (decide (Z.of_nat (length data) <= 4096 - pos b)).
  - rewrite !take_ge by lia. reflexivity.
  - f_equal. lia.
Qed.

Lemma take_take_app {A} (n : nat) (l1 l2 : list A) :
  take n (take n l1 ++ l2) = take n (l1 ++ l2).
Proof.
  destruct (decide (n <= length l1)%nat).
  - rewrite (take_app_le l1) by lia.
    rewrite take_app_le by (rewrite length_take; lia).
    rewrite take_take. f_equal. lia.
  - rewrite (take_ge l1) by lia. reflexivity.
Qed.

(** ** [output] on a free, well-typed slot *)

Lemma levelString_prefix level :
  level ∈ defined_levels →
  ∃ pre, (level, pre) ∈ prefix_table
         ∧ levelString level = String.list_byte_of_string pre.
Proof.
  unfold defined_levels, prefix_table.
  rewrite !elem_of_cons, elem_of_nil.
  intros [->|[->|[->|[->|[->|[->|[]]]]]]];
    [exists "FATAL: "%string | exists "ERROR: "%string
    | exists "WARNING: "%string | exists "INFO: "%string
    | exists "DEBUG: "%string | exists "TRACE: "%string];
    (split; [|vm_compute; reflexivity]);
    rewrite !elem_of_cons; tauto.
Qed.

Lemma levelString_len level :
  0 <= Go.len (levelString level) <= 9
  ∧ (level ∈ defined_levels → 0 < Go.len (levelString level)).
Proof.
  destruct (decide (level ∈ defined_levels)) as [Hin|Hout].
  - revert Hin. unfold defined_levels. rewrite !elem_of_cons, elem_of_nil.
    intros [->|[->|[->|[->|[->|[->|[]]]]]]]; vm_compute; intuition congruence.
  - unfold levelString. rewrite (levelStrings_undefined _ Hout).
    split; [unfold Go.len; simpl; lia | contradiction].
Qed.

Lemma levelString_len_ok level : slice_len_ok (levelString level).
Proof.
  unfold slice_len_ok. rewrite max_int_val. unfold defaulBufferSize.
  pose proof (levelString_len level). lia.
Qed.

Lemma clear_ok b :
  buffer_typed b → buffer_typed (clear b) ∧ pos_ok (clear b)
  ∧ content (clear b) = [].
Proof.
  intros Hty. unfold buffer_typed, pos_ok, clear, content, defaulBufferSize.
  cbn. repeat split; lia || assumption.
Qed.

Lemma composed_ok b ts level data :
  buffer_typed b →
  buffer_typed (composed b ts level data) ∧ pos_ok (composed b ts level data)
  ∧ content (composed b ts level data)
    = take (Z.to_nat defaulBufferSize) (ts ++ levelString level ++ data).
Proof.
  intros Hty. destruct (clear_ok b Hty) as (Hc1 & Hc2 & Hc3).
  unfold composed.
  assert (buffer_typed (appended (clear b) ts)) as Ht1
    by (apply appended_typed; assumption).
  assert (pos_ok (appended (clear b) ts)) as Hp1
    by (apply appended_pos_ok; assumption).
  assert (buffer_typed (appended (appended (clear b) ts) (levelString level)))
    as Ht2 by (apply appended_typed; assumption).
  assert (pos_ok (appended (appended (clear b) ts) (levelString level)))
    as Hp2 by (apply appended_pos_ok; assumption).
  split; [apply appended_typed; assumption|].
  split; [apply appended_pos_ok; assumption|].
  rewrite !content_appended by assumption.
  rewrite Hc3. cbn [app]. rewrite take_take_app, <- app_assoc.
  apply take_take_app.
Qed.

Lemma terminated_ok b :
  buffer_typed b → pos_ok b →
  buffer_typed (terminated b) ∧ pos_ok (terminated b).
Proof.
  intros Hty Hpos. unfold terminated. case_bool_decide.
  - split; assumption.
  - split; [apply appended_typed | apply appended_pos_ok]; assumption.
Qed.

(** The bytes handed to the sink are the record of the specification, cut
    at the capacity of the buffer. *)
Lemma content_terminated b ts level data :
  buffer_typed b →
  content (terminated (composed b ts level data))
  = take (Z.to_nat defaulBufferSize)
      (record_bytes ts (levelString level) data).
Proof.
  intros Hty.
  destruct (composed_ok b ts level data Hty) as (Ht & Hp & Hc).
  unfold terminated, record_bytes.
  set (full := ts ++ levelString level ++ data) in *.
  set (n := Z.to_nat defaulBufferSize) in *.
  destruct (decide (length full <= n)%nat) as [Hfit|Hover].
  - (* nothing was cut *)
    rewrite take_ge in Hc by assumption. rewrite Hc.
    case_bool_decide.
    + rewrite Hc. rewrite take_ge by assumption. reflexivity.
    + rewrite content_appended by assumption. rewrite Hc. reflexivity.
  - (* the buffer is full: a newline does not fit *)
    assert (take n (if bool_decide (last full = Some newline)
                    then full else full ++ [newline]) = take n full) as ->.
    { case_bool_decide; [reflexivity|]. apply take_app_le. lia. }
    case_bool_decide.
    + exact Hc.
    + rewrite content_appended by assumption. rewrite Hc.
      fold n. rewrite take_take_app. apply take_app_le. lia.
Qed.

Lemma output_compose_slot l w i b level data :
  slot l i b → slice_len_ok (timeStr l) → slice_len_ok data →
  output_compose i level data (l, w)
  = (Ok (content (composed b (timeStr l) level data)),
     (with_buffer i (composed b (timeStr l) level data) l, w)).
Proof.
  intros Hs Hts Hdata. pose proof Hs as (_ & _ & Hty).
  destruct (clear_ok b Hty) as (Hc1 & Hc2 & _).
  unfold output_compose, composed.
  set (b0 := clear b) in *.
  set (b1 := appended b0 (timeStr l)).
  set (b2 := appended b1 (levelString level)).
  set (b3 := appended b2 data).
  assert (buffer_typed b1 ∧ pos_ok b1) as [Ht1 Hp1]
    by (split; [apply appended_typed|apply appended_pos_ok]; assumption).
  assert (buffer_typed b2 ∧ pos_ok b2) as [Ht2 Hp2]
    by (split; [apply appended_typed|apply appended_pos_ok]; assumption).
  assert (buffer_typed b3 ∧ pos_ok b3) as [Ht3 Hp3]
    by (split; [apply appended_typed|apply appended_pos_ok]; assumption).
  erewrite bind_Ok by (apply buf_clear_slot; eassumption).
  erewrite bind_Ok by reflexivity.
  pose proof (slot_with_buffer l i b b0 Hs Hc1) as Hs0.
  erewrite bind_Ok by (apply buf_append_slot; eassumption).
  rewrite with_buffer_twice.
  pose proof (slot_with_buffer l i b b1 Hs Ht1) as Hs1.
  erewrite bind_Ok
    by (apply buf_append_slot; [eassumption..|apply levelString_len_ok]).
  rewrite with_buffer_twice.
  pose proof (slot_with_buffer l i b b2 Hs Ht2) as Hs2.
  erewrite bind_Ok by (apply buf_append_slot; eassumption).
  rewrite with_buffer_twice.
  pose proof (slot_with_buffer l i b b3 Hs Ht3) as Hs3.
  apply buf_get_slot; assumption.
Qed.

(** With one of the six prefixes the composed bytes are never empty. *)
Lemma composed_nonempty b ts level data :
  buffer_typed b → level ∈ defined_levels →
  0 < Go.len (content (composed b ts level data)).
Proof.
  intros Hty Hlevel.
  destruct (composed_ok b ts level data Hty) as (_ & _ & ->).
  destruct (levelString_len level) as [_ Hpre]. specialize (Hpre Hlevel).
  unfold Go.len in *. rewrite length_take, !length_app.
  unfold defaulBufferSize. lia.
Qed.

(** Reading the last byte of a non-empty slice. *)
Lemma index_last (g : list byte) :
  0 < Go.len g <= Go.max_int →
  ∃ x, last g = Some x ∧ Go.index g (Go.int_sub (Go.len g) 1) = Some x.
Proof.
  rewrite max_int_val. intros Hlen.
  destruct (last g) as [x|] eqn:Hlast.
  - exists x. split; [reflexivity|].
    unfold Go.index, Go.int_sub.
    rewrite wrap_int_small by (rewrite max_int_val, min_int_val; lia).
    rewrite bool_decide_eq_true_2 by lia.
    rewrite <- Hlast, last_lookup. f_equal. unfold Go.len. lia.
  - apply last_None in Hlast. subst g. unfold Go.len in Hlen. simpl in Hlen.
    lia.
Qed.

Lemma output_body_slot l w i b level data :
  slot l i b → slice_len_ok (timeStr l) → slice_len_ok data →
  0 < Go.len (content (composed b (timeStr l) level data)) →
  output_body i level data (l, w)
  = writer_Write (content (terminated (composed b (timeStr l) level data)))
      (with_buffer i (terminated (composed b (timeStr l) level data)) l, w).
Proof.
  intros Hs Hts Hdata Hne. pose proof Hs as (_ & _ & Hty).
  destruct (composed_ok b (timeStr l) level data Hty) as (Htc & Hpc & _).
  set (bc := composed b (timeStr l) level data) in *.
  pose proof (slot_with_buffer l i b bc Hs Htc) as Hsc.
  unfold output_body.
  erewrite bind_Ok by (apply output_compose_slot; eassumption).
  fold bc.
  erewrite bind_Ok by (apply buf_get_slot; eassumption).
  destruct (index_last (content bc)) as (x & Hlast & Hidx).
  { split; [assumption|]. rewrite content_length by assumption.
    unfold pos_ok, defaulBufferSize in Hpc. rewrite max_int_val. lia. }
  rewrite Hidx.
  erewrite bind_Ok by reflexivity.
  destruct (terminated_ok bc Htc Hpc) as [Htt Hpt].
  unfold terminated in *. rewrite Hlast in *.
  destruct (decide (x = newline)) as [->|Hx].
  - rewrite (bool_decide_eq_false_2 (newline ≠ newline)) by auto.
    rewrite (bool_decide_eq_true_2 (Some newline = Some newline)) in *
      by reflexivity.
    erewrite bind_Ok by reflexivity.
    erewrite bind_Ok by (apply buf_get_slot; eassumption).
    reflexivity.
  - rewrite (bool_decide_eq_true_2 (x ≠ newline)) by assumption.
    rewrite (bool_decide_eq_false_2 (Some x = Some newline)) in *
      by congruence.
    erewrite bind_Ok
      by (apply buf_append_slot;
          [eassumption..|unfold slice_len_ok; rewrite max_int_val;
                         vm_compute; discriminate]).
    rewrite with_buffer_twice.
    pose proof (slot_with_buffer l i b _ Hs Htt) as Hst.
    erewrite bind_Ok by (apply buf_get_slot; eassumption).
    reflexivity.
Qed.

Lemma output_filtered level data l w :
  level > currentLevel l → output level data (l, w) = (Ok tt, (l, w)).
Proof.
  intros Hgt. unfold output.
  erewrite bind_Ok by reflexivity.
  rewrite bool_decide_eq_true_2 by assumption. reflexivity.
Qed.

Lemma passing_level_defined level cur :
  0 <= level → level <= cur → cur ∈ defined_levels →
  level ∈ defined_levels.
Proof.
  unfold defined_levels, FatalLevel, ErrorLevel, WarnLevel, InfoLevel,
    DebugLevel, TraceLevel.
  rewrite !elem_of_cons, !elem_of_nil. lia.
Qed.

Lemma sink_input_emit e w :
  sink_input (emit e w)
  = sink_input w
      ++ match e with EvWrite _ _ p => [p] | _ => [] end.
Proof.
  unfold sink_input, emit. cbn [trace]. rewrite omap_app.
  destruct e; reflexivity.
Qed.

(** A record that passes the filter, on a free well-typed slot. *)
Lemma output_pass level data l w i rest b lw :
  level ∈ defined_levels → level <= currentLevel l →
  bufStack l = i :: rest → Go.len (bufStack l) <= defaulBuffers →
  slot l i b → slice_len_ok (timeStr l) → slice_len_ok data →
  writers w !! writer l = Some lw →
  let p := take (Z.to_nat defaulBufferSize)
             (record_bytes (timeStr l) (levelString level) data) in
  output level data (l, w)
  = (if sink_fault w p then Panic SinkPanic else Ok tt,
     (set_bufStack (rest ++ [i])
        (with_buffer i (terminated (composed b (timeStr l) level data)) l),
      emit (EvWrite (writer l) (Out lw) p) w)).
Proof.
  intros Hlevel Hle Hchan Hcap Hs Hts Hdata Hlw p. pose proof Hs as (_ & _ & Hty).
  unfold output.
  erewrite bind_Ok by reflexivity.
  rewrite bool_decide_eq_false_2 by lia. cbn [negb].
  erewrite bind_Ok by (unfold recv_bufStack; rewrite Hchan; reflexivity).
  unfold defer.
  rewrite (output_body_slot _ w i b)
    by (try assumption; apply composed_nonempty; assumption).
  cbn [timeStr set_bufStack].
  rewrite content_terminated by assumption. fold p.
  unfold writer_Write. cbn [writer with_buffer set_buffers set_bufStack].
  rewrite Hlw.
  assert (Go.len rest < defaulBuffers) as Hlt.
  { rewrite Hchan in Hcap. unfold Go.len in *. cbn [length] in Hcap. lia. }
  destruct (sink_fault w p); unfold send_bufStack;
    cbn [bufStack with_buffer set_buffers set_bufStack];
    rewrite bool_decide_eq_true_2 by assumption; reflexivity.
Qed.

(** [demo_state] is what [New] makes of [demo_config]. *)
Lemma demo_state_New :
  New demo_config demo_world = (inl demo_state.1, demo_state.2).
Proof. reflexivity. Qed.

Lemma demo_slot : slot demo_logger 0 buffer_zero.
Proof.
  unfold slot, buffer_typed, Go.len. cbn [demo_logger buffers buffer_zero buf].
  split; [lia|]. split; [reflexivity|]. rewrite length_replicate.
  reflexivity.
Qed.

(** ** The properties of [buffer.append] and [output] *)

(** C3: on a buffer with [0 <= pos <= capacity], [append(data)] does not
    panic, copies the first [min(len(data), capacity - pos)] bytes of [data]
    to [buf[pos:]], leaves every other byte and the length of the array as
    they were, and advances [pos] by that number; the run of [TestBuffer]
    (capacity-1 appends of ["0"], then ["12"]) ends with ["00001"]. *)
Theorem append_truncates (b : buffer) (data : list byte) :
  buffer_typed b → pos_ok b → slice_len_ok data →
  let n := Z.min (Go.len data) (defaulBufferSize - pos b) in
  (∃ b', append b data = Some b'
     ∧ pos b' = pos b + n
     ∧ Go.len (buf b') = defaulBufferSize
     ∧ take (Z.to_nat n) (drop (Z.to_nat (pos b)) (buf b'))
       = take (Z.to_nat n) data
     ∧ take (Z.to_nat (pos b)) (buf b') = take (Z.to_nat (pos b)) (buf b)
     ∧ drop (Z.to_nat (pos b + n)) (buf b')
       = drop (Z.to_nat (pos b + n)) (buf b))
  ∧ TestBuffer = Some (String.list_byte_of_string "00001").
Proof.
  intros Hty Hpos Hlen n. split; [|apply TestBuffer_result].
  exists (appended b data). split; [apply append_appended; assumption|].
  split; [reflexivity|].
  split; [apply appended_typed; assumption|].
  pose proof (len_nonneg data) as H0.
  unfold appended. cbn [buf pos]. fold n.
  assert (0 <= n ∧ n <= Go.len data ∧ pos b + n <= defaulBufferSize) as Hn
    by (subst n; unfold pos_ok in Hpos; lia).
  clearbody n.
  unfold buffer_typed, pos_ok, Go.len, defaulBufferSize in *.
  set (pre := take (Z.to_nat (pos b)) (buf b)).
  set (mid := take (Z.to_nat n) data).
  assert (length pre = Z.to_nat (pos b)) as Hpre
    by (subst pre; rewrite length_take; lia).
  assert (length mid = Z.to_nat n) as Hmid
    by (subst mid; rewrite length_take; lia).
  split; [|split].
  - rewrite drop_app_length' by (symmetry; assumption).
    rewrite take_app_length' by (symmetry; assumption). reflexivity.
  - rewrite take_app_length' by (symmetry; assumption). reflexivity.
  - rewrite app_assoc. apply drop_app_length'.
    rewrite length_app. lia.
Qed.

Lemma append_truncates_witness :
  ∃ b', append (filled 4095) (String.list_byte_of_string "12") = Some b'
        ∧ pos b' = 4095 + 1.
Proof.
  destruct (append_truncates (filled 4095) (String.list_byte_of_string "12"))
    as [(b' & H1 & H2 & _) _].
  - by vm_compute.
  - by vm_compute.
  - by vm_compute.
  - exists b'. split; [exact H1 | exact H2].
Defined.

(** C1: [output(level, data)] hands a record to the sink exactly when
    [level <= currentLevel]; it then takes the index at the head of
    [bufStack] and gives it back.  A call with [level > currentLevel]
    returns at once without error and changes nothing, whatever the state
    of the pool: the level is compared before the receive. *)
Theorem output_emits_iff_level_passes
    (level : Z) (data : list byte) (l : Logger) (w : World)
    (i : Z) (rest : list Z) (b : buffer) (lw : LogWriter) :
  0 <= level <= 255 →
  currentLevel l ∈ defined_levels →
  (level <= currentLevel l →
     bufStack l = i :: rest ∧ Go.len (bufStack l) <= defaulBuffers
     ∧ slot l i b ∧ slice_len_ok (timeStr l) ∧ slice_len_ok data
     ∧ writers w !! writer l = Some lw) →
  ∃ r l' w', output level data (l, w) = (r, (l', w'))
    ∧ (level <= currentLevel l
       ↔ ∃ p, trace w' = trace w ++ [EvWrite (writer l) (Out lw) p])
    ∧ (level <= currentLevel l → bufStack l' = rest ++ [i])
    ∧ (level > currentLevel l → r = Ok tt ∧ l' = l ∧ w' = w).
Proof.
  intros Hbyte Hcur Hpool.
  destruct (decide (level <= currentLevel l)) as [Hle|Hgt].
  - destruct (Hpool Hle) as (Hchan & Hcap & Hs & Hts & Hdata & Hlw).
    assert (level ∈ defined_levels) as Hlevel
      by (eapply passing_level_defined; [lia|eassumption..]).
    eexists _, _, _. split; [eapply output_pass; eassumption|].
    cbn [trace emit bufStack set_bufStack]. repeat split; eauto; lia.
  - exists (Ok tt), l, w. split; [apply output_filtered; lia|].
    repeat split; try (intros; lia).
    intros [p Hp]. apply (f_equal length) in Hp.
    rewrite length_app in Hp. cbn in Hp. lia.
Qed.

Lemma output_emits_iff_level_passes_witness :
  ∃ r l' w',
    output InfoLevel (String.list_byte_of_string "LogInfo") demo_state
    = (r, (l', w'))
    ∧ bufStack l' = seqZ 1 999 ++ [0].
Proof.
  destruct (output_emits_iff_level_passes
              InfoLevel (String.list_byte_of_string "LogInfo")
              demo_logger demo_state.2 0 (seqZ 1 999) buffer_zero
              (mkLogWriter (mkFile 3 "./Example.log") None None))
    as (r & l' & w' & H1 & _ & H2 & _).
  - by vm_compute.
  - apply (bool_decide_unpack _). by vm_compute.
  - intros _. split; [by vm_compute|]. split; [by vm_compute|].
    split; [exact demo_slot|]. split; [by vm_compute|].
    split; [by vm_compute|reflexivity].
  - exists r, l', w'. split; [exact H1|]. apply H2. by vm_compute.
Defined.

(** C2, as the specification states it, fails on a payload that fills the
    buffer: [LogInfo] of 4096 bytes hands the sink the first 4096 bytes of
    the record, not the whole record. *)
Lemma output_format_counterexample :
  ¬ output_format_claim InfoLevel long_payload demo_state.
Proof.
  unfold output_format_claim. intros Hclaim.
  apply (f_equal (fmap (M := list) length)) in Hclaim.
  vm_compute in Hclaim. discriminate Hclaim.
Qed.

(** C2, amended: for each of the six levels, a call of [output] that passes
    the filter hands the sink the first 4096 bytes ([defaulBufferSize]) of
    timestamp, prefix of the level, payload, and a newline unless those
    bytes already end with one; so it hands over exactly that sequence
    whenever the sequence is at most 4096 bytes long. *)
Theorem output_record_format
    (level : Z) (data : list byte) (l : Logger) (w : World)
    (i : Z) (rest : list Z) (b : buffer) (lw : LogWriter) :
  level ∈ defined_levels →
  level <= currentLevel l →
  bufStack l = i :: rest → Go.len (bufStack l) <= defaulBuffers →
  slot l i b → slice_len_ok (timeStr l) → slice_len_ok data →
  writers w !! writer l = Some lw →
  ∃ pre, (level, pre) ∈ prefix_table ∧
    let record :=
      record_bytes (timeStr l) (String.list_byte_of_string pre) data in
    sink_input (output level data (l, w)).2.2
    = sink_input w ++ [take (Z.to_nat defaulBufferSize) record]
    ∧ (Go.len record <= defaulBufferSize → output_format_claim level data (l, w)).
Proof.
  intros Hlevel Hle Hchan Hcap Hs Hts Hdata Hlw.
  destruct (levelString_prefix level Hlevel) as (pre & Hpre & Hstr).
  exists pre. split; [assumption|]. intros record.
  assert (sink_input (output level data (l, w)).2.2
          = sink_input w ++ [take (Z.to_nat defaulBufferSize) record]) as Hout.
  { rewrite (output_pass level data l w i rest b lw) by assumption.
    cbn [snd]. rewrite sink_input_emit. subst record. rewrite Hstr.
    reflexivity. }
  split; [exact Hout|].
  intros Hfit. unfold output_format_claim. rewrite Hout. cbn [fst snd].
  rewrite Hstr. fold record. rewrite take_ge; [reflexivity|].
  unfold Go.len in Hfit. lia.
Qed.

Lemma output_record_format_witness :
  sink_input
    (output InfoLevel (String.list_byte_of_string "LogInfo") demo_state).2.2
  = [String.list_byte_of_string "2019.03.01 10:20:30.00 INFO: LogInfo"
       ++ [newline]].
Proof.
  destruct (output_record_format
              InfoLevel (String.list_byte_of_string "LogInfo")
              demo_logger demo_state.2 0 (seqZ 1 999) buffer_zero
              (mkLogWriter (mkFile 3 "./Example.log") None None))
    as (pre & _ & H & _).
  - apply (bool_decide_unpack _). by vm_compute.
  - by vm_compute.
  - by vm_compute.
  - by vm_compute.
  - exact demo_slot.
  - by vm_compute.
  - by vm_compute.
  - reflexivity.
  - clear H. by vm_compute.
Defined.

(** C9: for each of the six entry points, when [output] tests the last byte
    of the composed bytes these are not empty, because the prefix of the
    level is not, so the index [len - 1] is in range; the call never panics
    with an index out of range. *)
Theorem last_byte_index_in_range
    (f : list byte → M unit) (level : Z) (data : list byte)
    (l : Logger) (w : World) (i : Z) (rest : list Z) (b : buffer) :
  (f, level) ∈ entry_points →
  bufStack l = i :: rest → slot l i b →
  slice_len_ok (timeStr l) → slice_len_ok data →
  0 < Go.len (levelString level)
  ∧ (∃ g s', output_compose i level data (set_bufStack rest l, w) = (Ok g, s')
       ∧ 0 < Go.len g
       ∧ is_Some (Go.index g (Go.int_sub (Go.len g) 1)))
  ∧ (f data (l, w)).1 ≠ Panic IndexOutOfRange.
Proof.
  intros Hf Hchan Hs Hts Hdata. pose proof Hs as (_ & _ & Hty).
  assert (level ∈ defined_levels ∧ f = output level) as [Hlevel ->].
  { revert Hf. unfold entry_points, defined_levels.
    rewrite !elem_of_cons, !elem_of_nil.
    intros [H|[H|[H|[H|[H|[H|[]]]]]]]; inversion H; subst; split;
      reflexivity || tauto. }
  pose proof (composed_nonempty b (timeStr l) level data Hty Hlevel) as Hne.
  destruct (composed_ok b (timeStr l) level data Hty) as (Htc & Hpc & _).
  split; [apply levelString_len; assumption|]. split.
  - eexists _, _. split; [apply (output_compose_slot _ w i b); assumption|].
    cbn [timeStr set_bufStack]. split; [assumption|].
    destruct (index_last (content (composed b (timeStr l) level data)))
      as (x & _ & ->); [|eauto].
    split; [assumption|]. rewrite content_length by assumption.
    unfold pos_ok, defaulBufferSize in Hpc. rewrite max_int_val. lia.
  - unfold output. erewrite bind_Ok by reflexivity.
    case_bool_decide; [cbn; discriminate|]. cbn [negb].
    erewrite bind_Ok by (unfold recv_bufStack; rewrite Hchan; reflexivity).
    unfold defer.
    rewrite (output_body_slot _ w i b) by assumption.
    unfold writer_Write, send_bufStack.
    cbn [writer with_buffer set_buffers set_bufStack bufStack].
    destruct (writers w !! writer l); [destruct (sink_fault w _)|];
      case_bool_decide; cbn; discriminate.
Qed.

Lemma last_byte_index_in_range_witness :
  (LogTrace [] (set_currentLevel TraceLevel demo_logger, demo_state.2)).1
  ≠ Panic IndexOutOfRange.
Proof.
  apply (last_byte_index_in_range LogTrace TraceLevel []
           (set_currentLevel TraceLevel demo_logger) demo_state.2
           0 (seqZ 1 999) buffer_zero).
  - unfold entry_points. repeat constructor.
  - by vm_compute.
  - exact demo_slot.
  - by vm_compute.
  - by vm_compute.
Defined.

(** ** The buffer pool *)

Ltac off_channel_prim :=
  intros [l w]; cbn;
  repeat match goal with
         | |- context [match ?x with _ => _ end] => destruct x; cbn
         end;
  (split; [discriminate|reflexivity]).

Lemma off_channel_buffer_at i : off_channel (buffer_at i).
Proof. unfold buffer_at, lift. off_channel_prim. Qed.

Lemma off_channel_put_buffer i b : off_channel (put_buffer i b).
Proof. off_channel_prim. Qed.

Lemma off_channel_getTime : off_channel getTime.
Proof. off_channel_prim. Qed.

Lemma off_channel_writer_Write p : off_channel (writer_Write p).
Proof. unfold writer_Write. off_channel_prim. Qed.

Lemma off_channel_writer_Reset f : off_channel (writer_Reset f).
Proof. unfold writer_Reset. off_channel_prim. Qed.

Lemma off_channel_SetLevel v : off_channel (SetLevel v).
Proof. unfold SetLevel. off_channel_prim. Qed.

Lemma off_channel_SetTimeFormat layout : off_channel (SetTimeFormat layout).
Proof. off_channel_prim. Qed.

Lemma off_channel_updateTime_tick : off_channel updateTime_tick.
Proof. off_channel_prim. Qed.

Lemma off_channel_output_filter level : off_channel (output_filter level).
Proof. off_channel_prim. Qed.

Lemma off_channel_close_file : off_channel close_file.
Proof. off_channel_prim. Qed.

Lemma off_channel_assign_file f : off_channel (assign_file f).
Proof. off_channel_prim. Qed.

Create HintDb off_channel.
#[local] Hint Resolve off_channel_ret off_channel_lift off_channel_buffer_at
  off_channel_put_buffer off_channel_getTime off_channel_writer_Write
  off_channel_writer_Reset off_channel_SetLevel off_channel_SetTimeFormat
  off_channel_updateTime_tick off_channel_output_filter
  off_channel_close_file off_channel_assign_file : off_channel.

Ltac off_channel_steps :=
  repeat first
    [ apply off_channel_bind; [|intros ?]
    | solve [auto with off_channel] ].

Lemma off_channel_buf_clear i : off_channel (buf_clear i).
Proof. unfold buf_clear. off_channel_steps. Qed.

Lemma off_channel_buf_append i data : off_channel (buf_append i data).
Proof. unfold buf_append. off_channel_steps. Qed.

Lemma off_channel_buf_get i : off_channel (buf_get i).
Proof. unfold buf_get. off_channel_steps. Qed.

#[local] Hint Resolve off_channel_buf_clear off_channel_buf_append
  off_channel_buf_get : off_channel.

Lemma off_channel_output_compose i level data :
  off_channel (output_compose i level data).
Proof. unfold output_compose. off_channel_steps. Qed.

#[local] Hint Resolve off_channel_output_compose : off_channel.

Lemma off_channel_output_body i level data :
  off_channel (output_body i level data).
Proof.
  unfold output_body. off_channel_steps.
  case_bool_decide; auto with off_channel.
Qed.

Lemma off_channel_Reopen : off_channel Reopen.
Proof.
  intros [l w]. unfold Reopen.
  destruct (os_OpenFile (filename l) w) as [[f|e] w1].
  - assert (off_channel (writer_Reset f;; close_file;; assign_file f;;
                         (mret None : M (option error)))) as H
      by off_channel_steps.
    apply (H (l, w1)).
  - split; [discriminate|reflexivity].
Qed.

#[local] Hint Resolve off_channel_Reopen : off_channel.

Lemma off_channel_signalLoop_round : off_channel signalLoop_round.
Proof. unfold signalLoop_round. off_channel_steps. Qed.

(** One step of a call moves an index between the channel and the call,
    or moves nothing. *)
Lemma thread_step_pool t s :
  bufStack (thread_step t s).2.1 ++ held (thread_step t s).1
  ≡ₚ bufStack s.1 ++ held t.
Proof.
  destruct t as [level data|level data|i level data|i r|r];
    cbn [thread_step].
  - destruct s as [l w]. cbn. case_bool_decide; reflexivity.
  - destruct s as [l w]. unfold recv_bufStack.
    destruct (bufStack l) as [|i rest] eqn:Hchan;
      cbn [fst snd held bufStack set_bufStack]; rewrite ?Hchan.
    + reflexivity.
    + rewrite app_nil_r. symmetry. apply Permutation_cons_append.
  - destruct (off_channel_output_body i level data s) as [Hb Hc].
    destruct (output_body i level data s) as [[[]|p|] s']; cbn in *;
      congruence || (rewrite Hc; reflexivity).
  - destruct s as [l w]. cbn. case_bool_decide; cbn.
    + rewrite app_nil_r. reflexivity.
    + reflexivity.
  - reflexivity.
Qed.

Lemma checked_out_split (ts : list thread) tid t t' :
  ts !! tid = Some t →
  ts ≫= held ≡ₚ held t ++ (take tid ts ++ drop (S tid) ts) ≫= held
  ∧ <[tid := t']> ts ≫= held
    ≡ₚ held t' ++ (take tid ts ++ drop (S tid) ts) ≫= held.
Proof.
  intros Ht. pose proof (lookup_lt_Some _ _ _ Ht) as Hlt. split.
  - rewrite <- (take_drop_middle ts tid t Ht) at 1.
    rewrite !bind_app, bind_cons. apply Permutation_app_swap_app.
  - rewrite insert_take_drop by assumption.
    rewrite !bind_app, bind_cons. apply Permutation_app_swap_app.
Qed.

Lemma exec_action_partition a sys :
  pool_partition sys → pool_partition (exec_action a sys).
Proof.
  unfold pool_partition, chan, checked_out. intros Hinv.
  destruct a as [level data|tid|level|layout| | |]; cbn [exec_action].
  - cbn [threads shared]. rewrite bind_app. cbn. rewrite app_nil_r.
    assumption.
  - destruct (threads sys !! tid) as [t|] eqn:Ht; [|assumption].
    pose proof (thread_step_pool t (shared sys)) as Hstep.
    destruct (thread_step t (shared sys)) as [t' s']. cbn [threads shared].
    cbn [fst snd] in Hstep.
    destruct (checked_out_split (threads sys) tid t t' Ht) as [H1 H2].
    rewrite H2, app_assoc, Hstep, <- app_assoc, <- H1. assumption.
  - cbn [threads shared].
    rewrite (proj2 (off_channel_SetLevel level (shared sys))). assumption.
  - cbn [threads shared].
    rewrite (proj2 (off_channel_SetTimeFormat layout (shared sys))).
    assumption.
  - cbn [threads shared].
    rewrite (proj2 (off_channel_Reopen (shared sys))). assumption.
  - cbn [threads shared].
    rewrite (proj2 (off_channel_updateTime_tick (shared sys))). assumption.
  - cbn [threads shared].
    rewrite (proj2 (off_channel_signalLoop_round (shared sys))). assumption.
Qed.

Lemma exec_partition sched sys :
  pool_partition sys → pool_partition (exec sched sys).
Proof.
  revert sys. induction sched as [|a sched IH]; intros sys Hinv.
  - assumption.
  - cbn [exec foldl]. apply IH, exec_action_partition, Hinv.
Qed.

Lemma partition_facts sys :
  pool_partition sys →
  NoDup (chan sys) ∧ NoDup (checked_out sys)
  ∧ (∀ i, i ∈ checked_out sys → i ∉ chan sys)
  ∧ Go.len (chan sys) + Go.len (checked_out sys) = defaulBuffers.
Proof.
  unfold pool_partition. intros Hinv.
  assert (NoDup (chan sys ++ checked_out sys)) as Hnd
    by (rewrite Hinv; apply NoDup_seqZ).
  apply NoDup_app in Hnd as (Hn1 & Hdisj & Hn2).
  repeat split; try assumption.
  - intros i Hout Hin. exact (Hdisj i Hin Hout).
  - apply Permutation_length in Hinv.
    rewrite length_app, length_seqZ in Hinv. unfold Go.len.
    unfold defaulBuffers in *. lia.
Qed.

(** Whatever the body does, [output] gives the index back: the deferred
    send runs when the body returns and when it panics. *)
Lemma output_releases level data l w i rest :
  level <= currentLevel l → bufStack l = i :: rest →
  Go.len rest < defaulBuffers →
  (output level data (l, w)).1 ≠ Block
  ∧ bufStack (output level data (l, w)).2.1 = rest ++ [i].
Proof.
  intros Hle Hchan Hlen. unfold output.
  erewrite bind_Ok by reflexivity.
  rewrite bool_decide_eq_false_2 by lia. cbn [negb].
  erewrite bind_Ok by (unfold recv_bufStack; rewrite Hchan; reflexivity).
  unfold defer.
  destruct (off_channel_output_body i level data (set_bufStack rest l, w))
    as [Hb Hc].
  destruct (output_body i level data (set_bufStack rest l, w))
    as [[[]|p|] [l' w']]; cbn [fst snd bufStack set_bufStack] in *;
    [| |congruence];
    unfold send_bufStack; rewrite Hc;
    rewrite bool_decide_eq_true_2 by assumption;
    (split; [discriminate|reflexivity]).
Qed.

(** The steps of a call, run one after the other, are [output]. *)
Lemma run_alone_output level data s :
  (output level data s).1 ≠ Block →
  run_alone level data s
  = (Finished (output level data s).1, (output level data s).2).
Proof.
  destruct s as [l w]. unfold run_alone, output, mbind, M_bind.
  cbn [thread_step output_filter].
  case_bool_decide; cbn [negb thread_step]; [reflexivity|].
  unfold recv_bufStack.
  destruct (bufStack l) as [|i rest]; cbn [thread_step fst];
    [congruence|].
  unfold defer.
  destruct (output_body i level data (set_bufStack rest l, w))
    as [[[]|p|] [l' w']]; cbn [thread_step fst]; [| |congruence];
    unfold send_bufStack; case_bool_decide; cbn [thread_step fst snd];
    congruence.
Qed.

Lemma release_guaranteed_partition sys :
  pool_partition sys → release_guaranteed sys.
Proof.
  intros Hinv tid t Ht.
  destruct t as [level data|level data|i level data|i r|r];
    try reflexivity.
  - cbn [thread_step].
    destruct (off_channel_output_body i level data (shared sys)) as [Hb Hc].
    destruct (output_body i level data (shared sys)) as [[[]|p|] s'];
      cbn [fst snd] in *; [| |congruence]; eexists _, _; eauto.
  - destruct (partition_facts sys Hinv) as (_ & _ & _ & Hlen).
    assert (i ∈ checked_out sys) as Hi.
    { unfold checked_out. apply list_elem_of_bind. exists (Releasing i r).
      split; [cbn; set_solver|]. eapply list_elem_of_lookup_2, Ht. }
    assert (Go.len (chan sys) < defaulBuffers) as Hlt.
    { destruct (checked_out sys); [inversion Hi|].
      unfold Go.len in *. cbn [length] in Hlen. lia. }
    unfold chan in *. destruct (shared sys) as [l w].
    cbn [thread_step send_bufStack fst snd] in *.
    rewrite bool_decide_eq_true_2 by assumption. reflexivity.
Qed.

(** C7: in every state the logger made by [New] can reach, with any number
    of calls of [output] under way and any interleaving with the other
    methods, the indices in the channel and the indices checked out are
    together the indices 0 .. N-1, each once: no index is in both, none is
    held twice, none is lost.  A call that holds an index always reaches
    its deferred send, whether the body returns or panics, and the send
    puts the index back once; a filtered call returns without taking one.
    The steps of a call, run in sequence, are [output] itself. *)
Theorem buffer_pool_invariant
    (config : LoggerConfig) (w : World) (sched : list action) :
  fs_error w (Filename config) = None →
  ∃ l w', New config w = (inl l, w') ∧
    let sys := exec sched (mkSystem [] (l, w')) in
    pool_partition sys
    ∧ NoDup (chan sys) ∧ NoDup (checked_out sys)
    ∧ (∀ i, i ∈ checked_out sys → i ∉ chan sys)
    ∧ Go.len (chan sys) + Go.len (checked_out sys) = defaulBuffers
    ∧ release_guaranteed sys
    ∧ (∀ level data,
         if bool_decide (level > currentLevel (shared sys).1)
         then output level data (shared sys) = (Ok tt, shared sys)
         else ∀ i rest, chan sys = i :: rest →
              (output level data (shared sys)).1 ≠ Block
              ∧ bufStack (output level data (shared sys)).2.1 = rest ++ [i])
    ∧ (∀ level data s,
         (output level data s).1 ≠ Block →
         run_alone level data s
         = (Finished (output level data s).1, (output level data s).2)).
Proof.
  intros Hopen.
  destruct (New_success config w Hopen) as (l & w' & HNew & Hchan & _).
  exists l, w'. split; [exact HNew|]. intros sys.
  assert (pool_partition sys) as Hinv.
  { apply exec_partition. unfold pool_partition, chan, checked_out.
    cbn. rewrite Hchan, app_nil_r. reflexivity. }
  destruct (partition_facts sys Hinv) as (Hn1 & Hn2 & Hdisj & Hlen).
  repeat (split; [assumption|]).
  split; [apply release_guaranteed_partition; assumption|].
  split; [|apply run_alone_output].
  intros level data. case_bool_decide as Hlevel.
  - destruct (shared sys) as [l1 w1]. apply output_filtered. assumption.
  - intros i rest Hrest. unfold chan in *.
    destruct (shared sys) as [l1 w1]. cbn [fst] in *.
    apply output_releases; [lia|assumption|].
    rewrite Hrest in Hlen. pose proof (len_nonneg (checked_out sys)).
    unfold Go.len in *. cbn [length] in Hlen. lia.
Qed.

Lemma buffer_pool_invariant_witness :
  ∃ l w', New demo_config demo_world = (inl l, w') ∧
    let sys :=
      exec [Call InfoLevel long_payload; Run 0; Call ErrorLevel [];
            Run 1; Run 0; Run 1; Tick; Run 1; DoSetLevel TraceLevel;
            Call TraceLevel [newline]; Run 2; Run 2; Run 0; Sighup]
        (mkSystem [] (l, w')) in
    pool_partition sys ∧ release_guaranteed sys.
Proof.
  destruct (buffer_pool_invariant demo_config demo_world
              [Call InfoLevel long_payload; Run 0; Call ErrorLevel [];
               Run 1; Run 0; Run 1; Tick; Run 1; DoSetLevel TraceLevel;
               Call TraceLevel [newline]; Run 2; Run 2; Run 0; Sighup])
    as (l & w' & HNew & Hpart & _ & _ & _ & _ & Hrel & _).
  - reflexivity.
  - exists l, w'. split; [exact HNew|]. split; [exact Hpart|exact Hrel].
Defined.

(** ** More about [buffer] *)

Lemma appended_nothing b data :
  buffer_typed b → pos_ok b →
  pos b = defaulBufferSize ∨ data = [] → appended b data = b.
Proof.
  intros Hty Hpos Hcase. pose proof (len_nonneg data) as H0.
  unfold buffer_typed, pos_ok in *. destruct b as [bf p]. cbn [buf pos] in *.
  unfold appended. cbn [buf pos].
  assert (Go.len data `min` (defaulBufferSize - p) = 0) as ->.
  { destruct Hcase as [->| ->]; [lia|]. unfold Go.len. cbn [length]. lia. }
  rewrite take_0, Z.add_0_r. cbn [app]. rewrite take_drop. reflexivity.
Qed.

(** X4: appending to a full buffer, or appending no bytes, returns
    normally and leaves the buffer exactly as it was. *)
Theorem append_full_or_empty_is_noop (b : buffer) (data : list byte) :
  buffer_typed b → pos_ok b → slice_len_ok data →
  pos b = defaulBufferSize ∨ data = [] →
  append b data = Some b.
Proof.
  intros Hty Hpos Hlen Hcase. rewrite append_appended by assumption.
  f_equal. apply appended_nothing; assumption.
Qed.

Lemma append_full_or_empty_is_noop_witness :
  append (filled 4096) (String.list_byte_of_string "12") = Some (filled 4096).
Proof.
  apply (append_full_or_empty_is_noop (filled 4096)
           (String.list_byte_of_string "12")).
  - by vm_compute.
  - by vm_compute.
  - by vm_compute.
  - left. reflexivity.
Defined.

Lemma buffer_do_bytes o b :
  buffer_typed b → pos_ok b → buffer_op_ok o →
  ∃ b', buffer_do o b = Some b' ∧ buffer_typed b' ∧ pos_ok b'
        ∧ content b' = bytes_do o (content b).
Proof.
  intros Hty Hpos Hok. destruct o as [|data]; cbn [buffer_do bytes_do].
  - exists (clear b). destruct (clear_ok b Hty) as (? & ? & ?). auto.
  - exists (appended b data). split; [apply append_appended; assumption|].
    split; [apply appended_typed; assumption|].
    split; [apply appended_pos_ok; assumption|].
    apply content_appended; assumption.
Qed.

(** X3: any sequence of [clear] and [append] on a buffer runs without
    panic and keeps [0 <= pos <= capacity] and the array length; [get] then
    returns what the sequence gives on plain byte strings, where [clear]
    empties and [append] concatenates and cuts at 4096 bytes. *)
Theorem buffer_run_bytes (os : list buffer_op) (b : buffer) :
  buffer_typed b → pos_ok b → Forall buffer_op_ok os →
  ∃ b', buffer_run os b = Some b'
    ∧ buffer_typed b' ∧ pos_ok b'
    ∧ get b' = Some (bytes_run os (content b))
    ∧ Go.len (bytes_run os (content b)) <= defaulBufferSize.
Proof.
  intros Hty Hpos Hos. revert b Hty Hpos.
  induction Hos as [|o os Ho Hos IH]; intros b Hty Hpos.
  - exists b. cbn [buffer_run bytes_run foldl].
    split; [reflexivity|]. split; [assumption|]. split; [assumption|].
    split; [apply content_get; assumption|].
    rewrite content_length by assumption. apply Hpos.
  - destruct (buffer_do_bytes o b Hty Hpos Ho) as (b1 & Hdo & Hty1 & Hpos1 & Hc).
    destruct (IH b1 Hty1 Hpos1) as (b' & Hrun & Hty' & Hpos' & Hget & Hlen).
    exists b'. cbn [buffer_run bytes_run foldl]. rewrite Hdo.
    cbn [mbind option_bind]. rewrite <- Hc. auto.
Qed.

Lemma buffer_run_bytes_witness :
  ∃ b', buffer_run
          [OpAppend (String.list_byte_of_string "lost"); OpClear;
           OpAppend (String.list_byte_of_string "INFO: ");
           OpAppend (String.list_byte_of_string "kept")] buffer_zero
        = Some b'
    ∧ get b' = Some (String.list_byte_of_string "INFO: kept").
Proof.
  destruct (buffer_run_bytes
              [OpAppend (String.list_byte_of_string "lost"); OpClear;
               OpAppend (String.list_byte_of_string "INFO: ");
               OpAppend (String.list_byte_of_string "kept")] buffer_zero)
    as (b' & Hrun & _ & _ & Hget & _).
  - by vm_compute.
  - by vm_compute.
  - repeat constructor; by vm_compute.
  - exists b'. split; [exact Hrun|]. rewrite Hget. by vm_compute.
Defined.

(** ** Sequential use *)

Lemma sink_writes_emit e w :
  sink_writes (emit e w)
  = sink_writes w
      ++ match e with EvWrite _ out p => [(out, p)] | _ => [] end.
Proof.
  unfold sink_writes, emit. cbn [trace]. rewrite omap_app.
  destruct e; reflexivity.
Qed.

(** Between two calls an index is ready and addresses a sound buffer. *)
Lemma logger_ok_head l w :
  logger_ok (l, w) →
  ∃ i rest b, bufStack l = i :: rest ∧ slot l i b
    ∧ Go.len (bufStack l) <= defaulBuffers.
Proof.
  intros (Hlen & Hbufs & Hchan & _). cbn [fst snd] in *.
  pose proof (Permutation_length Hchan) as Hl. rewrite length_seqZ in Hl.
  destruct (bufStack l) as [|i rest] eqn:Hstack.
  { unfold defaulBuffers in Hl. cbn in Hl. lia. }
  assert (i ∈ seqZ 0 defaulBuffers) as Hi by (rewrite <- Hchan; left).
  apply elem_of_seqZ in Hi.
  destruct (lookup_lt_is_Some_2 (buffers l) (Z.to_nat i)) as [b Hb]; [lia|].
  exists i, rest, b. split; [reflexivity|]. split.
  - split; [lia|]. split; [exact Hb|].
    exact (proj1 (proj1 (Forall_lookup _ _) Hbufs _ _ Hb)).
  - unfold Go.len. lia.
Qed.

Lemma do_call_spec c l w :
  logger_ok (l, w) → call_ok c →
  ∃ r l' w', do_call c (l, w) = (r, (l', w'))
    ∧ (r = Ok tt ∨ r = Panic SinkPanic)
    ∧ logger_ok (l', w')
    ∧ (fs_error w' = fs_error w ∧ clock w' = clock w
       ∧ sink_fault w' = sink_fault w ∧ filename l' = filename l
       ∧ log_output w' = log_output w)
    ∧ view_of (l', w')
      = (view_step (fs_error w) (clock w) (filename l) c (view_of (l, w))).1
    ∧ sink_writes w'
      = sink_writes w
        ++ (view_step (fs_error w) (clock w) (filename l) c
              (view_of (l, w))).2
    ∧ open_fds w' ∖ {[fd (file l')]} = open_fds w ∖ {[fd (file l)]}.
Proof.
  intros Hok Hc.
  pose proof Hok as (Hlen & Hbufs & Hchan & Hcur & Hts & (lw & Hlw & Hout)
                     & Hfd & Hfds & Hclk).
  cbn [fst snd] in *.
  destruct c as [level data|level|layout| |]; cbn [do_call view_step].
  - (* a log call *)
    destruct Hc as [Hlevel Hdata]. cbn [view_of v_level fst snd].
    destruct (decide (level <= currentLevel l)) as [Hle|Hgt].
    + destruct (logger_ok_head l w Hok) as (i & rest & b & Hstack & Hs & Hcap).
      rewrite (output_pass level data l w i rest b lw) by assumption.
      rewrite bool_decide_eq_true_2 by assumption.
      eexists _, _, _. split; [reflexivity|].
      split; [destruct (sink_fault w _); auto|].
      pose proof Hs as (_ & Hb & Hty).
      destruct (composed_ok b (timeStr l) level data Hty) as (Htc & Hpc & _).
      destruct (terminated_ok _ Htc Hpc) as [Htt Hpt].
      split; [|split; [|split; [|split]]].
      * unfold logger_ok.
        cbn [fst snd buffers bufStack currentLevel timeStr writer file
             with_buffer set_buffers set_bufStack emit writers open_fds
             next_fd clock world_ok].
        rewrite length_insert. split; [assumption|].
        split; [apply Forall_insert; auto|].
        split; [rewrite <- Hchan, Hstack;
                symmetry; apply Permutation_cons_append|].
        repeat (split; [eauto|]). eauto.
      * cbn. auto.
      * reflexivity.
      * rewrite sink_writes_emit, Hout. reflexivity.
      * reflexivity.
    + rewrite output_filtered by lia.
      rewrite bool_decide_eq_false_2 by assumption.
      eexists _, _, _. split; [reflexivity|]. split; [auto|].
      split; [assumption|]. split; [auto|]. split; [reflexivity|].
      split; [rewrite app_nil_r; reflexivity|reflexivity].
  - (* SetLevel *)
    unfold mbind, M_bind, SetLevel. cbn [view_of v_level fst snd].
    case_bool_decide as Hv.
    + destruct (levelStrings_defined level Hv) as [p ->].
      eexists _, _, _. split; [reflexivity|]. split; [auto|].
      split; [|split; [auto|]; split; [reflexivity|];
               split; [rewrite app_nil_r; reflexivity|reflexivity]].
      unfold logger_ok. cbn [fst snd buffers bufStack currentLevel timeStr
        writer file set_currentLevel].
      repeat (split; [eauto|]). eauto.
    + rewrite (levelStrings_undefined level Hv).
      eexists _, _, _. split; [reflexivity|]. split; [auto|].
      split; [assumption|]. split; [auto|]. split; [reflexivity|].
      split; [rewrite app_nil_r; reflexivity|reflexivity].
  - (* SetTimeFormat *)
    eexists _, _, _. split; [reflexivity|]. split; [auto|].
    split; [|split; [auto|]; split; [reflexivity|];
             split; [rewrite app_nil_r; reflexivity|reflexivity]].
    unfold logger_ok. cbn [fst snd buffers bufStack currentLevel timeStr
      writer file set_timeFormat].
    repeat (split; [eauto|]). eauto.
  - (* Reopen, its error dropped *)
    unfold signalLoop_round, mbind, M_bind, Reopen, os_OpenFile.
    destruct (fs_error w (filename l)) as [e|] eqn:Hfs.
    + eexists _, _, _. split; [reflexivity|]. split; [auto|].
      split; [|split; [cbn; auto|]; split; [reflexivity|];
               split; [cbn [snd]; rewrite sink_writes_emit, !app_nil_r;
                       reflexivity
                      |reflexivity]].
      unfold logger_ok. cbn. repeat (split; [eauto|]). eauto.
    + unfold mbind, M_bind, writer_Reset.
      cbn [writers emit set_fds writer]. rewrite Hlw.
      cbn [close_file assign_file mret M_ret].
      eexists _, _, _. split; [reflexivity|]. split; [auto|].
      assert (fd (file l) ≠ next_fd w) as Hne
        by (specialize (Hfds _ Hfd); lia).
      assert (next_fd w ∉ open_fds w) as Hfresh
        by (intros Hin; specialize (Hfds _ Hin); lia).
      split; [|split; [cbn; auto|]; split; [reflexivity|]; split].
      * unfold logger_ok, world_ok.
        cbn [fst snd buffers bufStack currentLevel timeStr writer file
             set_file file_Close emit set_fds set_writers writers open_fds
             next_fd clock fd].
        repeat (split; [eauto|]); [| | |assumption].
        -- eexists. split; [apply lookup_insert_eq|reflexivity].
        -- apply elem_of_difference. split.
           ++ apply elem_of_union_l, elem_of_singleton. reflexivity.
           ++ rewrite elem_of_singleton. congruence.
        -- intros d Hd. apply elem_of_difference in Hd as [Hd _].
           apply elem_of_union in Hd as [Hd|Hd].
           ++ apply elem_of_singleton in Hd. lia.
           ++ specialize (Hfds _ Hd). lia.
      * unfold sink_writes, file_Close, emit.
        cbn [fst snd trace set_fds set_writers]. rewrite !omap_app.
        cbn. rewrite !app_nil_r. reflexivity.
      * cbn [fst snd set_file file file_Close emit set_fds set_writers
             open_fds fd].
        apply set_eq. intros d.
        rewrite !elem_of_difference, elem_of_union, !elem_of_singleton.
        split.
        -- intros [[[->|Hd] Hold] Hnew]; [congruence|auto].
        -- intros [Hd Hold]. split; [auto|]. intros ->. contradiction.
  - (* a tick of the time cache *)
    eexists _, _, _. split; [reflexivity|]. split; [auto|].
    split; [|split; [auto|]; split; [reflexivity|];
             split; [rewrite app_nil_r; reflexivity|reflexivity]].
    unfold logger_ok. cbn [fst snd buffers bufStack currentLevel timeStr
      writer file set_timeStr].
    repeat (split; [eauto|]). eauto.
Qed.

Lemma view_run_cons fs clk name c cs v :
  (view_run fs clk name (c :: cs) v).1
  = (view_run fs clk name cs (view_step fs clk name c v).1).1
  ∧ (view_run fs clk name (c :: cs) v).2
    = (view_step fs clk name c v).2
      ++ (view_run fs clk name cs (view_step fs clk name c v).1).2.
Proof.
  cbn [view_run]. destruct (view_step fs clk name c v) as [v' out].
  cbn [fst snd]. destruct (view_run fs clk name cs v') as [v'' outs].
  split; reflexivity.
Qed.

Lemma view_run_app fs clk name cs1 cs2 v :
  (view_run fs clk name (cs1 ++ cs2) v).1
  = (view_run fs clk name cs2 (view_run fs clk name cs1 v).1).1
  ∧ (view_run fs clk name (cs1 ++ cs2) v).2
    = (view_run fs clk name cs1 v).2
      ++ (view_run fs clk name cs2 (view_run fs clk name cs1 v).1).2.
Proof.
  revert v. induction cs1 as [|c cs1 IH]; intros v.
  - split; reflexivity.
  - rewrite <- app_comm_cons.
    destruct (view_run_cons fs clk name c (cs1 ++ cs2) v) as [-> ->].
    destruct (view_run_cons fs clk name c cs1 v) as [-> ->].
    destruct (IH (view_step fs clk name c v).1) as [-> ->].
    rewrite app_assoc. split; reflexivity.
Qed.

(** Log calls alone leave the view as it is and write to its file. *)
Lemma view_run_log_calls fs clk name cs v :
  view_run fs clk name (log_calls cs) v
  = (v, (λ p, (v_file v, p)) <$> logged (v_level v) (v_time v) cs).
Proof.
  induction cs as [|[level data] cs IH].
  - reflexivity.
  - unfold log_calls, logged in *. cbn [fmap list_fmap view_run view_step fst snd].
    fold (list_fmap _ _ (λ c : Z * list byte, CLog c.1 c.2) cs).
    change (list_fmap _ _ ?f ?l) with (f <$> l) in *.
    rewrite IH. rewrite filter_cons. cbn [fst snd].
    case_bool_decide; case_decide; try contradiction; reflexivity.
Qed.

Lemma run_calls_spec cs l w :
  logger_ok (l, w) → Forall call_ok cs →
  logger_ok (run_calls cs (l, w)).2
  ∧ Forall (λ r, r = Ok tt ∨ r = Panic SinkPanic) (run_calls cs (l, w)).1
  ∧ length (run_calls cs (l, w)).1 = length cs
  ∧ view_of (run_calls cs (l, w)).2
    = (view_run (fs_error w) (clock w) (filename l) cs (view_of (l, w))).1
  ∧ sink_writes (run_calls cs (l, w)).2.2
    = sink_writes w
      ++ (view_run (fs_error w) (clock w) (filename l) cs (view_of (l, w))).2
  ∧ open_fds (run_calls cs (l, w)).2.2 ∖ {[fd (file (run_calls cs (l, w)).2.1)]}
    = open_fds w ∖ {[fd (file l)]}
  ∧ log_output (run_calls cs (l, w)).2.2 = log_output w.
Proof.
  intros Hok Hcs. revert l w Hok.
  induction Hcs as [|c cs Hc Hcs IH]; intros l w Hok.
  - cbn [run_calls view_run fst snd length]. rewrite app_nil_r.
    split; [assumption|]. split; [constructor|]. repeat split.
  - destruct (do_call_spec c l w Hok Hc)
      as (r & l' & w' & Hdo & Hr & Hok' & (Hfs & Hclk & _ & Hname & Hlog)
          & Hview & Hwrites & Hfds).
    destruct (IH l' w' Hok') as (Hok'' & Hrs & Hlen & Hview' & Hwrites' & Hfds'
                                 & Hlog').
    destruct (view_run_cons (fs_error w) (clock w) (filename l) c cs
                (view_of (l, w))) as [-> ->].
    cbn [run_calls]. rewrite Hdo.
    destruct (run_calls cs (l', w')) as [rs s'']. cbn [fst snd] in *.
    rewrite Hfs, Hclk, Hname, Hview in *.
    split; [assumption|]. split; [constructor; assumption|].
    split; [cbn; lia|]. split; [assumption|].
    split; [rewrite Hwrites', Hwrites, app_assoc; reflexivity|].
    split; congruence.
Qed.

Lemma buffer_zero_ok : buffer_typed buffer_zero ∧ pos_ok buffer_zero.
Proof.
  unfold buffer_typed, pos_ok, buffer_zero, Go.len. cbn [buf pos].
  rewrite length_replicate. unfold defaulBufferSize. lia.
Qed.

(** [New] leaves a logger ready for calls. *)
Lemma New_logger_ok config w :
  world_ok w → fs_error w (Filename config) = None →
  ∃ l w', New config w = (inl l, w') ∧ logger_ok (l, w')
    ∧ sink_writes w' = sink_writes w.
Proof.
  intros [Hfds Hclk] Hopen. unfold New, os_OpenFile. rewrite Hopen.
  cbn -[seqZ replicate fresh]. eexists _, _. split; [reflexivity|].
  split.
  - unfold logger_ok, world_ok. cbn -[seqZ replicate fresh].
    split; [apply length_replicate|].
    split; [apply Forall_replicate, buffer_zero_ok|].
    split; [reflexivity|].
    split; [apply (bool_decide_unpack _); by vm_compute|].
    split; [apply Hclk|].
    split; [eexists; split; [apply lookup_insert_eq|reflexivity]|].
    split; [apply elem_of_union_l, elem_of_singleton; reflexivity|].
    split; [|assumption].
    intros d Hd. apply elem_of_union in Hd as [Hd|Hd].
    + apply elem_of_singleton in Hd. lia.
    + specialize (Hfds _ Hd). lia.
  - unfold sink_writes. cbn -[seqZ replicate fresh].
    rewrite !omap_app. cbn. rewrite !app_nil_r. reflexivity.
Qed.

Lemma demo_world_ok : world_ok demo_world.
Proof.
  split.
  - intros d Hd. cbn in Hd. apply elem_of_empty in Hd. contradiction.
  - intros layout. by vm_compute.
Qed.

Lemma demo_state_ok : logger_ok demo_state.
Proof.
  destruct (New_logger_ok demo_config demo_world demo_world_ok eq_refl)
    as (l & w' & HNew & Hok & _).
  rewrite demo_state_New in HNew. injection HNew as <- <-. exact Hok.
Qed.

(** X1: when the file cannot be opened [New] returns the error of
    [os.OpenFile] and does nothing else: no writer is made, the output of
    the standard logger is not redirected, no signal handler and no
    goroutine is started. *)
Theorem New_failure_has_no_effect
    (config : LoggerConfig) (w : World) (e : error) :
  fs_error w (Filename config) = Some e →
  ∃ w', New config w = (inr e, w')
    ∧ trace w' = trace w ++ [EvOpenFile (Filename config) (inr e)]
    ∧ writers w' = writers w ∧ log_output w' = log_output w
    ∧ open_fds w' = open_fds w ∧ next_fd w' = next_fd w.
Proof.
  intros Hfail. unfold New, os_OpenFile. rewrite Hfail.
  eexists. split; [reflexivity|]. cbn. auto.
Qed.

Lemma New_failure_has_no_effect_witness :
  ∃ w', New (mkLoggerConfig "/" None None) demo_world
        = (inr "open /: is a directory"%string, w')
    ∧ log_output w' = None.
Proof.
  destruct (New_failure_has_no_effect (mkLoggerConfig "/" None None)
              demo_world "open /: is a directory"%string)
    as (w' & H1 & _ & _ & H2 & _).
  - reflexivity.
  - exists w'. split; [exact H1 | exact H2].
Defined.

(** X5: on a logger made by [New], no sequence of calls of the public
    methods and ticks of the time cache blocks or panics on its own: every
    call returns, unless the sink panics in [Write]; and the logger stays
    sound: 1000 buffers of 4096 bytes with [0 <= pos <= 4096], every index
    back in [bufStack], a defined threshold, and a sink that writes to the
    logger's file, which is open. *)
Theorem sequential_calls_safe
    (config : LoggerConfig) (w : World) (cs : list api_call) :
  world_ok w → fs_error w (Filename config) = None → Forall call_ok cs →
  ∃ l w', New config w = (inl l, w')
    ∧ logger_ok (run_calls cs (l, w')).2
    ∧ Forall (λ r, r = Ok tt ∨ r = Panic SinkPanic) (run_calls cs (l, w')).1
    ∧ length (run_calls cs (l, w')).1 = length cs.
Proof.
  intros Hw Hopen Hcs.
  destruct (New_logger_ok config w Hw Hopen) as (l & w' & HNew & Hok & _).
  exists l, w'. split; [exact HNew|].
  destruct (run_calls_spec cs l w' Hok Hcs) as (H1 & H2 & H3 & _).
  auto.
Qed.

Lemma sequential_calls_safe_witness :
  ∃ l w', New demo_config demo_world = (inl l, w')
    ∧ logger_ok
        (run_calls [CLog InfoLevel long_payload; CSetLevel 255; CReopen;
                    CSetTimeFormat "15:04"; CTick; CLog TraceLevel []]
           (l, w')).2.
Proof.
  destruct (sequential_calls_safe demo_config demo_world
              [CLog InfoLevel long_payload; CSetLevel 255; CReopen;
               CSetTimeFormat "15:04"; CTick; CLog TraceLevel []])
    as (l & w' & HNew & Hok & _).
  - exact demo_world_ok.
  - reflexivity.
  - repeat constructor; try (apply (bool_decide_unpack _); by vm_compute);
      by vm_compute.
  - exists l, w'. split; [exact HNew | exact Hok].
Defined.



Lemma size_with_member (X : gset nat) (x : nat) :
  x ∈ X → size X = S (size (X ∖ {[x]})).
Proof.
  intros Hx. rewrite (union_difference_singleton_L x X Hx) at 1.
  rewrite size_union.
  - rewrite size_singleton. reflexivity.
  - apply disjoint_singleton_l, not_elem_of_difference. right.
    apply elem_of_singleton. reflexivity.
Qed.

(** X7: through any sequence of calls, rotations included, the logger
    owns exactly one open descriptor, that of its current file; the other
    open descriptors are never touched, so the number of open descriptors
    stays what it was. *)
Theorem calls_keep_one_descriptor
    (cs : list api_call) (l : Logger) (w : World) :
  logger_ok (l, w) → Forall call_ok cs →
  fd (file (run_calls cs (l, w)).2.1) ∈ open_fds (run_calls cs (l, w)).2.2
  ∧ open_fds (run_calls cs (l, w)).2.2
      ∖ {[fd (file (run_calls cs (l, w)).2.1)]}
    = open_fds w ∖ {[fd (file l)]}
  ∧ size (open_fds (run_calls cs (l, w)).2.2) = size (open_fds w).
Proof.
  intros Hok Hcs.
  destruct (run_calls_spec cs l w Hok Hcs) as (Hok' & _ & _ & _ & _ & Hfds & _).
  pose proof Hok as (_ & _ & _ & _ & _ & _ & Hfd & _).
  pose proof Hok' as (_ & _ & _ & _ & _ & _ & Hfd' & _).
  cbn [fst snd] in Hfd.
  split; [exact Hfd'|]. split; [exact Hfds|].
  rewrite (size_with_member _ _ Hfd'), (size_with_member _ _ Hfd), Hfds.
  reflexivity.
Qed.

Lemma calls_keep_one_descriptor_witness :
  size (open_fds (run_calls [CReopen; CLog InfoLevel []; CReopen]
                    demo_state).2.2) = 1%nat.
Proof.
  destruct (calls_keep_one_descriptor [CReopen; CLog InfoLevel []; CReopen]
              demo_logger demo_state.2) as (_ & _ & H).
  - exact demo_state_ok.
  - repeat constructor; try (apply (bool_decide_unpack _); by vm_compute);
      by vm_compute.
  - change (demo_logger, demo_state.2) with demo_state in H.
    rewrite H. by vm_compute.
Defined.

Lemma log_calls_ok cs : Forall log_ok cs → Forall call_ok (log_calls cs).
Proof.
  intros Hcs. unfold log_calls. apply Forall_fmap.
  eapply Forall_impl; [exact Hcs|]. intros [level data] H. exact H.
Qed.

(** X8: log calls, a [Reopen], more log calls.  The records of the calls
    before the [Reopen] that pass the threshold go, in order, to the file
    the logger had; those after it go to the file just opened, or to the
    old file again if the path could not be opened.  No record is lost or
    written twice. *)
Theorem reopen_splits_records
    (cs1 cs2 : list (Z * list byte)) (l : Logger) (w : World) :
  logger_ok (l, w) → Forall log_ok cs1 → Forall log_ok cs2 →
  sink_writes
    (run_calls (log_calls cs1 ++ CReopen :: log_calls cs2) (l, w)).2.2
  = sink_writes w
    ++ ((λ p, (file l, p)) <$> logged (currentLevel l) (timeStr l) cs1)
    ++ ((λ p, (match fs_error w (filename l) with
               | None => mkFile (next_fd w) (filename l)
               | Some _ => file l
               end, p))
        <$> logged (currentLevel l) (timeStr l) cs2).
Proof.
  intros Hok Hcs1 Hcs2.
  assert (Forall call_ok (log_calls cs1 ++ CReopen :: log_calls cs2)) as Hcs.
  { apply Forall_app. split; [apply log_calls_ok; assumption|].
    constructor; [exact I|apply log_calls_ok; assumption]. }
  destruct (run_calls_spec _ l w Hok Hcs) as (_ & _ & _ & _ & -> & _).
  f_equal.
  destruct (view_run_app (fs_error w) (clock w) (filename l)
              (log_calls cs1) (CReopen :: log_calls cs2) (view_of (l, w)))
    as [_ ->].
  rewrite view_run_log_calls. cbn [fst snd]. f_equal.
  destruct (view_run_cons (fs_error w) (clock w) (filename l) CReopen
              (log_calls cs2) (view_of (l, w))) as [_ ->].
  rewrite view_run_log_calls. cbn [view_step fst snd app].
  destruct (fs_error w (filename l)); reflexivity.
Qed.

Lemma reopen_splits_records_witness :
  sink_writes
    (run_calls
       (log_calls [(InfoLevel, String.list_byte_of_string "LogInfo2");
                   (TraceLevel, String.list_byte_of_string "LogTrace")]
        ++ CReopen
        :: log_calls [(InfoLevel, String.list_byte_of_string "LogInfo3")])
       demo_state).2.2
  = [(mkFile 3 "./Example.log",
      String.list_byte_of_string "2019.03.01 10:20:30.00 INFO: LogInfo2"
        ++ [newline]);
     (mkFile 4 "./Example.log",
      String.list_byte_of_string "2019.03.01 10:20:30.00 INFO: LogInfo3"
        ++ [newline])].
Proof.
  pose proof (reopen_splits_records
                [(InfoLevel, String.list_byte_of_string "LogInfo2");
                 (TraceLevel, String.list_byte_of_string "LogTrace")]
                [(InfoLevel, String.list_byte_of_string "LogInfo3")]
                demo_logger demo_state.2) as H.
  change (demo_logger, demo_state.2) with demo_state in H.
  rewrite H.
  - by vm_compute.
  - exact demo_state_ok.
  - repeat constructor; try (apply (bool_decide_unpack _); by vm_compute);
      by vm_compute.
  - repeat constructor; try (apply (bool_decide_unpack _); by vm_compute);
      by vm_compute.
Defined.

(** ** What [output] leaves alone *)

Lemma same_config_refl s : same_config s s.
Proof. unfold same_config. repeat split. Qed.

Lemma same_config_trans s1 s2 s3 :
  same_config s1 s2 → same_config s2 s3 → same_config s1 s3.
Proof.
  unfold same_config.
  intros (?&?&?&?&?&?&?&?&?&?&?) (?&?&?&?&?&?&?&?&?&?&?).
  repeat split; congruence.
Qed.

Lemma silent_bind {A B} (m : M A) (f : A → M B) :
  silent m → (∀ a, silent (f a)) → silent (m ≫= f).
Proof.
  intros Hm Hf s. unfold mbind, M_bind. destruct (Hm s) as [Hc Ht].
  destruct (m s) as [[a|p|] s']; cbn [fst snd] in *; try (split; assumption).
  destruct (Hf a s') as [Hc' Ht']. split.
  - eapply same_config_trans; eassumption.
  - congruence.
Qed.

Lemma silent_ret {A} (a : A) : silent (mret a : M A).
Proof. intros s. split; [apply same_config_refl|reflexivity]. Qed.

Lemma silent_lift {A} p (o : option A) : silent (lift p o).
Proof.
  intros s. destruct o; (split; [apply same_config_refl|reflexivity]).
Qed.

Ltac silent_prim :=
  intros [l w]; cbn;
  repeat match goal with
         | |- context [match ?x with _ => _ end] => destruct x; cbn
         | |- context [bool_decide ?P] => destruct (bool_decide P); cbn
         end;
  (split; [unfold same_config; cbn; rewrite ?length_insert; repeat split
          |reflexivity]).

Lemma silent_buffer_at i : silent (buffer_at i).
Proof. unfold buffer_at, lift. silent_prim. Qed.

Lemma silent_put_buffer i b : silent (put_buffer i b).
Proof. silent_prim. Qed.

Lemma silent_getTime : silent getTime.
Proof. silent_prim. Qed.

Lemma silent_output_filter level : silent (output_filter level).
Proof. silent_prim. Qed.

Lemma silent_recv_bufStack : silent recv_bufStack.
Proof. silent_prim. Qed.

Lemma silent_send_bufStack i : silent (send_bufStack i).
Proof. unfold send_bufStack. silent_prim. Qed.

Create HintDb silent.
#[local] Hint Resolve silent_ret silent_lift silent_buffer_at
  silent_put_buffer silent_getTime silent_output_filter
  silent_recv_bufStack silent_send_bufStack : silent.

Ltac silent_steps :=
  repeat first
    [ apply silent_bind; [|intros ?]
    | solve [auto with silent] ].

Lemma silent_buf_clear i : silent (buf_clear i).
Proof. unfold buf_clear. silent_steps. Qed.

Lemma silent_buf_append i data : silent (buf_append i data).
Proof. unfold buf_append. silent_steps. Qed.

Lemma silent_buf_get i : silent (buf_get i).
Proof. unfold buf_get. silent_steps. Qed.

#[local] Hint Resolve silent_buf_clear silent_buf_append silent_buf_get
  : silent.

Lemma silent_output_compose i level data :
  silent (output_compose i level data).
Proof. unfold output_compose. silent_steps. Qed.

Lemma silent_writes_once {A} (m : M A) : silent m → writes_once m.
Proof. intros Hm s. destruct (Hm s). auto. Qed.

Lemma writes_once_bind {A B} (m : M A) (f : A → M B) :
  silent m → (∀ a, writes_once (f a)) → writes_once (m ≫= f).
Proof.
  intros Hm Hf s. unfold mbind, M_bind. destruct (Hm s) as [Hc Ht].
  destruct (m s) as [[a|p|] s']; cbn [fst snd] in *;
    [|split; auto..].
  destruct (Hf a s') as [Hc' Ht']. split.
  - eapply same_config_trans; eassumption.
  - rewrite <- Ht. destruct Hc as [<- _]. exact Ht'.
Qed.

Lemma writes_once_writer_Write p : writes_once (writer_Write p).
Proof.
  intros [l w]. unfold writer_Write.
  destruct (writers w !! writer l) as [lw|]; cbn [fst snd].
  - destruct (sink_fault w p); cbn [fst snd];
      (split; [unfold same_config; cbn; repeat split|right; eauto]).
  - split; [apply same_config_refl|left; reflexivity].
Qed.

Lemma writes_once_output_body i level data :
  writes_once (output_body i level data).
Proof.
  unfold output_body.
  apply writes_once_bind; [apply silent_output_compose|intros g2].
  apply writes_once_bind; [auto with silent|intros g1].
  apply writes_once_bind; [auto with silent|intros last].
  apply writes_once_bind; [case_bool_decide; auto with silent|intros _].
  apply writes_once_bind; [auto with silent|intros g].
  apply writes_once_writer_Write.
Qed.

Lemma writes_once_defer {A} (fin : M unit) (body : M A) :
  writes_once body → silent fin → writes_once (defer fin body).
Proof.
  intros Hbody Hfin s. unfold defer. destruct (Hbody s) as [Hc Ht].
  destruct (body s) as [r s']. cbn [fst snd] in *.
  destruct (Hfin s') as [Hc' Ht'].
  assert (same_config s (fin s').2) as Hc''
    by (eapply same_config_trans; eassumption).
  destruct r as [a|p|]; [| |split; assumption];
    destruct (fin s') as [[[]|p'|] s'']; cbn [fst snd] in *;
    (split; [assumption|rewrite Ht'; assumption]).
Qed.

(** X9: whatever the state, and whether it returns, panics or blocks,
    [output] leaves the threshold, the layout, the cached time, the file
    name and handle, the number of buffers, the open descriptors, the
    writers and the output of the standard logger as they were; the only
    call it makes to the outside is at most one [Write] on the logger's own
    writer. *)
Theorem output_only_formats_and_writes
    (level : Z) (data : list byte) (s : Logger * World) :
  same_config s (output level data s).2
  ∧ (trace (output level data s).2.2 = trace s.2
     ∨ ∃ out p, trace (output level data s).2.2
                = trace s.2 ++ [EvWrite (writer s.1) out p]).
Proof.
  revert s. change (writes_once (output level data)). unfold output.
  apply writes_once_bind; [apply silent_output_filter|intros pass].
  destruct pass; [|apply silent_writes_once, silent_ret].
  apply writes_once_bind; [apply silent_recv_bufStack|intros i].
  apply writes_once_defer;
    [apply writes_once_output_body|apply silent_send_bufStack].
Qed.

(** ** Blocking on the pool *)

Lemma held_in_flight (ts : list thread) :
  (length (ts ≫= held) <= length (in_flight ts))%nat.
Proof.
  unfold in_flight. induction ts as [|t ts IH]; [reflexivity|].
  rewrite bind_cons, length_app, filter_cons.
  destruct t; cbn [held finished length] in *;
    case_decide; try discriminate; try contradiction; cbn [length]; lia.
Qed.

Lemma waiting_in_flight (ts : list thread) tid t :
  ts !! tid = Some t → held t = [] → finished t = false →
  (length (ts ≫= held) < length (in_flight ts))%nat.
Proof.
  intros Ht Hheld Hfin.
  rewrite <- (take_drop_middle ts tid t Ht).
  unfold in_flight. rewrite bind_app, bind_cons, filter_app, filter_cons.
  rewrite decide_True by assumption.
  rewrite Hheld, !length_app. cbn [length app].
  pose proof (held_in_flight (take tid ts)).
  pose proof (held_in_flight (drop (S tid) ts)).
  unfold in_flight in *. lia.
Qed.

Lemma recv_step_partition sys level data :
  pool_partition sys →
  (thread_step (AtRecv level data) (shared sys)
   = (AtRecv level data, shared sys)
   ↔ Go.len (checked_out sys) = defaulBuffers)
  ∧ (Go.len (checked_out sys) < defaulBuffers →
     ∃ i rest, chan sys = i :: rest
       ∧ thread_step (AtRecv level data) (shared sys)
         = (Holding i level data,
            (set_bufStack rest (shared sys).1, (shared sys).2))).
Proof.
  intros Hinv.
  destruct (partition_facts sys Hinv) as (_ & _ & _ & Hlen).
  unfold chan in *. destruct (shared sys) as [l w]. cbn [fst snd] in *.
  cbn [thread_step recv_bufStack].
  destruct (bufStack l) as [|i rest]; unfold Go.len in *;
    cbn [length] in Hlen.
  - split; [split; [intros _; lia|reflexivity]|]. lia.
  - split; [split; [discriminate|lia]|]. eauto.
Qed.

(** X10: in every state a logger made by [New] can reach, under any
    interleaving, the receive from [bufStack] blocks exactly when all
    [defaulBuffers] indices are checked out; otherwise it takes the index
    at the head of the channel. *)
Theorem recv_blocks_iff_pool_exhausted
    (config : LoggerConfig) (w : World) (sched : list action)
    (level : Z) (data : list byte) :
  fs_error w (Filename config) = None →
  ∃ l w', New config w = (inl l, w') ∧
    let sys := exec sched (mkSystem [] (l, w')) in
    (thread_step (AtRecv level data) (shared sys)
     = (AtRecv level data, shared sys)
     ↔ Go.len (checked_out sys) = defaulBuffers)
    ∧ (Go.len (checked_out sys) < defaulBuffers →
       ∃ i rest, chan sys = i :: rest
         ∧ thread_step (AtRecv level data) (shared sys)
           = (Holding i level data,
              (set_bufStack rest (shared sys).1, (shared sys).2))).
Proof.
  intros Hopen.
  destruct (New_success config w Hopen) as (l & w' & HNew & Hchan & _).
  exists l, w'. split; [exact HNew|]. intros sys.
  apply recv_step_partition, exec_partition.
  unfold pool_partition, chan, checked_out. cbn.
  rewrite Hchan, app_nil_r. reflexivity.
Qed.

Lemma recv_blocks_iff_pool_exhausted_witness :
  ∃ l w', New demo_config demo_world = (inl l, w') ∧
    let sys := exec [Call InfoLevel []; Run 0; Run 0]
                 (mkSystem [] (l, w')) in
    Go.len (checked_out sys) < defaulBuffers →
    ∃ i rest, chan sys = i :: rest
      ∧ thread_step (AtRecv ErrorLevel []) (shared sys)
        = (Holding i ErrorLevel [],
           (set_bufStack rest (shared sys).1, (shared sys).2)).
Proof.
  destruct (recv_blocks_iff_pool_exhausted demo_config demo_world
              [Call InfoLevel []; Run 0; Run 0] ErrorLevel [])
    as (l & w' & HNew & _ & H).
  - reflexivity.
  - exists l, w'. split; [exact HNew | exact H].
Defined.

(** X11: as long as at most [defaulBuffers] calls of [output] are under
    way, none of them is ever blocked: in every reachable state each call
    that has not returned can take its next step. *)
Theorem no_call_blocks_below_capacity
    (config : LoggerConfig) (w : World) (sched : list action)
    (tid : nat) (t : thread) :
  fs_error w (Filename config) = None →
  ∃ l w', New config w = (inl l, w') ∧
    let sys := exec sched (mkSystem [] (l, w')) in
    Go.len (in_flight (threads sys)) <= defaulBuffers →
    threads sys !! tid = Some t → finished t = false →
    (thread_step t (shared sys)).1 ≠ t.
Proof.
  intros Hopen.
  destruct (New_success config w Hopen) as (l & w' & HNew & Hchan & _).
  exists l, w'. split; [exact HNew|]. intros sys Hcap Ht Hfin.
  assert (pool_partition sys) as Hinv.
  { apply exec_partition. unfold pool_partition, chan, checked_out.
    cbn. rewrite Hchan, app_nil_r. reflexivity. }
  destruct t as [level data|level data|i level data|i r|r];
    [| | | |discriminate].
  - destruct (shared sys) as [l1 w1]. cbn.
    case_bool_decide; discriminate.
  - pose proof (waiting_in_flight _ _ _ Ht eq_refl eq_refl) as Hwait.
    destruct (recv_step_partition sys level data Hinv) as [_ Hrecv].
    destruct Hrecv as (i & rest & _ & ->).
    + unfold checked_out, Go.len in *. lia.
    + discriminate.
  - destruct (release_guaranteed_partition sys Hinv tid _ Ht)
      as (r & s' & -> & _). discriminate.
  - rewrite (release_guaranteed_partition sys Hinv tid _ Ht). discriminate.
Qed.

Lemma no_call_blocks_below_capacity_witness :
  ∃ l w', New demo_config demo_world = (inl l, w') ∧
    let sys := exec [Call InfoLevel []; Call ErrorLevel []; Run 0; Run 0]
                 (mkSystem [] (l, w')) in
    (thread_step (AtFilter ErrorLevel []) (shared sys)).1
    ≠ AtFilter ErrorLevel [].
Proof.
  destruct (no_call_blocks_below_capacity demo_config demo_world
              [Call InfoLevel []; Call ErrorLevel []; Run 0; Run 0]
              1 (AtFilter ErrorLevel []))
    as (l & w' & HNew & H).
  - reflexivity.
  - exists l, w'. split; [exact HNew|]. intros sys. apply H.
    + injection HNew as <- <-. by vm_compute.
    + injection HNew as <- <-. by vm_compute.
    + reflexivity.
Defined.

(** ** More about [New] and the record format *)

(** X12: a successful [New] makes a writer of its own: a writer that
    existed before keeps its address and its target, while the output of
    the standard logger moves to the new writer; the new file is the
    descriptor the system hands out next. *)
Theorem New_keeps_other_writers
    (config : LoggerConfig) (w : World) (a : nat) :
  fs_error w (Filename config) = None → is_Some (writers w !! a) →
  ∃ l w', New config w = (inl l, w')
    ∧ writer l ≠ a
    ∧ writers w' !! a = writers w !! a
    ∧ log_output w' = Some (writer l)
    ∧ file l = mkFile (next_fd w) (Filename config).
Proof.
  intros Hopen Ha. unfold New, os_OpenFile. rewrite Hopen.
  cbn -[seqZ replicate fresh]. eexists _, _. split; [reflexivity|].
  cbn -[seqZ replicate fresh].
  assert (fresh (dom (writers w)) ≠ a) as Hne.
  { intros <-. apply (is_fresh (dom (writers w))).
    apply elem_of_dom. exact Ha. }
  split; [exact Hne|]. split; [apply lookup_insert_ne; exact Hne|].
  split; reflexivity.
Qed.

Lemma New_keeps_other_writers_witness :
  ∃ l w', New (mkLoggerConfig "./Second.log" None None) demo_state.2
          = (inl l, w')
    ∧ writer l ≠ 0%nat
    ∧ writers w' !! 0%nat = writers demo_state.2 !! 0%nat.
Proof.
  destruct (New_keeps_other_writers
              (mkLoggerConfig "./Second.log" None None) demo_state.2 0%nat)
    as (l & w' & H1 & H2 & H3 & _).
  - reflexivity.
  - eexists. vm_compute. reflexivity.
  - exists l, w'. split; [exact H1|]. split; [exact H2 | exact H3].
Defined.



(** ** Soundness under interleaving *)



Lemma sound_set_bufStack c l w : sound (set_bufStack c l, w) ↔ sound (l, w).
Proof. reflexivity. Qed.









